(** * eleanor PSF models: a shallow embedding of [src/eleanor/models.py]

    The models of [models.py] are translated to Rocq functions.  Numbers
    (Python and torch floating-point values) are taken as real numbers;
    arrays and tensors of dimension 0, 1 and 2 are lists with NumPy's
    broadcasting written out; a Python exception is a value of [error]
    carried by the [result] monad; a Python object is a record of its
    attributes, and an attribute that was never assigned raises
    [AttributeError] when it is read.  Rounding, overflow and the [inf]
    and [nan] of a division by zero are not modelled: a statement about a
    quotient assumes or proves that the divisor is not zero. *)

From Stdlib Require Import Reals Lra Lia ZArith List.
From stdpp Require Import base option list gmap strings.

Local Open Scope R_scope.

(** ** Exceptions and results *)

Inductive error : Type :=
| AttributeError | IndexError | KeyError | NameError
| RecursionError | RuntimeError | TypeError | ValueError.

Inductive result (A : Type) : Type :=
| Ok (a : A)
| Raise (e : error).
Arguments Ok {A} a.
Arguments Raise {A} e.

#[global] Instance result_ret : MRet result := fun A a => Ok a.
#[global] Instance result_bind : MBind result := fun A B f r =>
  match r with Ok a => f a | Raise e => Raise e end.
#[global] Instance result_fmap : FMap result := fun A B f r =>
  match r with Ok a => Ok (f a) | Raise e => Raise e end.

Definition is_ok {A} (r : result A) : Prop := exists a, r = Ok a.

(** [l[i]] on a Python sequence, for a non-negative index. *)
Definition index {A} (l : list A) (i : nat) : result A :=
  match l !! i with Some a => Ok a | None => Raise IndexError end.

(** [d[k]] on a Python dict. *)
Definition getitem {A} (d : gmap nat A) (k : nat) : result A :=
  match d !! k with Some a => Ok a | None => Raise KeyError end.

(** Reading an attribute that may not have been assigned. *)
Definition getattr {A} (o : option A) : result A :=
  match o with Some a => Ok a | None => Raise AttributeError end.

(** ** Tensors with broadcasting *)

Inductive tensor : Type :=
| T0 (x : R)
| T1 (v : list R)
| T2 (ncols : nat) (m : list (list R)).

Definition tshape (t : tensor) : list nat :=
  match t with
  | T0 _ => []
  | T1 v => [length v]
  | T2 c m => [length m; c]
  end.

Definition twf (t : tensor) : Prop :=
  match t with
  | T2 c m => Forall (fun r => length r = c) m
  | _ => True
  end.

Definition tmap (f : R -> R) (t : tensor) : tensor :=
  match t with
  | T0 x => T0 (f x)
  | T1 v => T1 (fmap (M:=list) f v)
  | T2 c m => T2 c (fmap (M:=list) (fmap (M:=list) f) m)
  end.

(** The elementwise combination of two tensors of one shape. *)
Definition tzip (f : R -> R -> R) (t1 t2 : tensor) : tensor :=
  match t1, t2 with
  | T1 u, T1 v => T1 (zip_with f u v)
  | T2 c m1, T2 _ m2 => T2 c (zip_with (zip_with f) m1 m2)
  | T0 a, _ => tmap (f a) t2
  | _, T0 b => tmap (fun a => f a b) t1
  | _, _ => t1
  end.

(** Two dimensions broadcast when they are equal or one of them is 1. *)
Definition bdim (a b : nat) : result nat :=
  if (a =? b)%nat then Ok a
  else if (a =? 1)%nat then Ok b
  else if (b =? 1)%nat then Ok a
  else Raise RuntimeError.

Definition brow (f : R -> R -> R) (u v : list R) : list R :=
  if (length u =? length v)%nat then zip_with f u v
  else if (length u =? 1)%nat then fmap (M:=list) (f (hd 0 u)) v
  else fmap (M:=list) (fun a => f a (hd 0 v)) u.

Definition brows (f : R -> R -> R) (m1 m2 : list (list R)) : list (list R) :=
  if (length m1 =? length m2)%nat then zip_with (brow f) m1 m2
  else if (length m1 =? 1)%nat then fmap (M:=list) (brow f (hd [] m1)) m2
  else fmap (M:=list) (fun r => brow f r (hd [] m2)) m1.

(** An elementwise binary operation, shapes aligned on the last axis. *)
Definition tbin (f : R -> R -> R) (t1 t2 : tensor) : result tensor :=
  match t1, t2 with
  | T0 a, _ => Ok (tmap (f a) t2)
  | _, T0 b => Ok (tmap (fun a => f a b) t1)
  | T1 u, T1 v => n ← bdim (length u) (length v); Ok (T1 (brow f u v))
  | T1 u, T2 c m => n ← bdim (length u) c; Ok (T2 n (fmap (M:=list) (brow f u) m))
  | T2 c m, T1 v => n ← bdim c (length v); Ok (T2 n (fmap (M:=list) (fun r => brow f r v) m))
  | T2 c1 m1, T2 c2 m2 =>
      n ← bdim c1 c2; _ ← bdim (length m1) (length m2);
      Ok (T2 n (brows f m1 m2))
  end.

Definition tadd := tbin Rplus.
Definition tsub := tbin Rminus.
Definition tmul := tbin Rmult.
Definition tdiv := tbin Rdiv.
(** [**] with a real exponent, for a positive base. *)
Definition tpow := tbin Rpower.
(** [t ** 2] *)
Definition tsq (t : tensor) : tensor := tmap (fun a => a ^ 2) t.

Definition rsum (v : list R) : R := foldr Rplus 0 v.

Definition telems (t : tensor) : list R :=
  match t with
  | T0 x => [x]
  | T1 v => v
  | T2 _ m => concat m
  end.

(** [torch.sum(t)]: a 0-d tensor. *)
Definition tsum (t : tensor) : tensor := T0 (rsum (telems t)).

(** [torch.zeros(shape)] for a 2-d shape. *)
Definition tzeros (shape : nat * nat) : tensor :=
  T2 (snd shape) (replicate (fst shape) (replicate (snd shape) 0)).

(** Iterating a tensor along its first axis, as tuple unpacking does. *)
Definition titer (t : tensor) : result (list tensor) :=
  match t with
  | T0 _ => Raise TypeError
  | T1 v => Ok (fmap (M:=list) T0 v)
  | T2 _ m => Ok (fmap (M:=list) T1 m)
  end.

(** [t[:n]] and [t[n:]] along the first axis. *)
Definition ttake (n : nat) (t : tensor) : result tensor :=
  match t with
  | T0 _ => Raise IndexError
  | T1 v => Ok (T1 (take n v))
  | T2 c m => Ok (T2 c (take n m))
  end.
Definition tdrop (n : nat) (t : tensor) : result tensor :=
  match t with
  | T0 _ => Raise IndexError
  | T1 v => Ok (T1 (drop n v))
  | T2 c m => Ok (T2 c (drop n m))
  end.

(** [t[i, j]] on a 2-d tensor. *)
Definition tget2 (t : tensor) (i j : nat) : result R :=
  match t with
  | T2 _ m => r ← index m i; index r j
  | _ => Raise IndexError
  end.

(** ** Library functions the module calls

    [scipy.special.iv], [scipy.signal.convolve2d], [torch.atan2], the mode
    tables of the [zernike] package, the TNC solver of [scipy.optimize]
    and [prf.make_prf_from_source] are not part of the module; they are
    taken as given. *)

Class Env : Type := {
  Loss : Type;
  Source : Type;
  make_prf_from_source : Source -> result tensor;
  iv : R -> R -> R;
  atan2 : R -> R -> R;
  convolve2d : tensor -> tensor -> result tensor;
  Zern_nk : nat -> nat;
  Zern_mtab : nat -> list Z;
  (** [sopt.minimize(objective, p0, method='TNC', tol=1e-1).x], the
      objective being the squared residual of the Gaussian-with-Zernike
      template against the reference image on the 117 x 117 grid *)
  tnc_minimize : tensor -> nat -> list R -> result (list R)
}.

(** ** Bounds *)

Inductive bound : Type :=
| Fin (r : R)
| Infty.

Abbreviation bounds_t := (list (bound * bound)).

(** ** The coordinate grid *)

(** One axis of [np.mgrid[start:stop:1j*num]]: [num] points, the step
    being [(stop - start) / float(num - 1)] unless [num] is 1. *)
Definition mgrid_axis (start stop : R) (num : nat) : list R :=
  let step := if (num =? 1)%nat then 1 else (stop - start) / (INR num - 1) in
  fmap (M:=list) (fun k => INR k * step + start) (seq 0 num).

Definition mgrid2 (r0 r1 : R) (n1 : nat) (c0 c1 : R) (n2 : nat) : tensor * tensor :=
  (T2 n2 (fmap (M:=list) (fun v => replicate n2 v) (mgrid_axis r0 r1 n1)),
   T2 n2 (replicate n1 (mgrid_axis c0 c1 n2))).

(** [Model._init_grid]: returns [(self.y, self.x)]. *)
Definition _init_grid (shape : nat * nat) (col_ref row_ref : R) : tensor * tensor :=
  let '(r, c) := (row_ref, col_ref) in
  let '(s1, s2) := shape in
  mgrid2 r (r + INR s1 - 1) s1 c (c + INR s2 - 1) s2.


(** A sample environment, to run the models on concrete inputs: a
    one-pixel reference image, the mode table of [Zern(4)] and a solver
    that returns its starting point. *)
Definition sample_env : Env := {|
  Loss := unit;
  Source := unit;
  make_prf_from_source := fun _ => Ok (T2 1 [[1]]);
  iv := fun _ _ => 1;
  atan2 := fun _ _ => 0;
  convolve2d := fun a _ => Ok a;
  Zern_nk := fun n => ((n + 1) * (n + 2) / 2)%nat;
  Zern_mtab := fun _ => [0; 1; -1; 0; -2; 2; -1; 1; -3; 3; 0; 2; -2; 4; -4]%Z;
  tnc_minimize := fun _ _ p0 => Ok p0
|}.

(** A second environment: another reference image and a solver that
    returns other coefficients. *)
Definition sample_env_alt : Env := {|
  Loss := unit;
  Source := unit;
  make_prf_from_source := fun _ => Ok (T2 2 [[1; 2]; [3; 4]]);
  iv := fun _ _ => 1;
  atan2 := fun _ _ => 0;
  convolve2d := fun a _ => Ok a;
  Zern_nk := fun n => ((n + 1) * (n + 2) / 2)%nat;
  Zern_mtab := fun _ => [0; 1; -1; 0; -2; 2; -1; 1; -3; 3; 0; 2; -2; 4; -4]%Z;
  tnc_minimize := fun _ _ p0 => Ok (fmap (M:=list) (Rplus 1) p0)
|}.
Section Models.
Context `{E : Env}.

(** ** Objects *)

(** The attributes [Model.__init__] assigns. *)
Record base : Type := {
  shape : nat * nat;
  col_ref : R;
  row_ref : R;
  xc : list R;
  yc : list R;
  bkg0 : R;
  y : tensor;
  x : tensor;
  bounds : bounds_t;
  loss : Loss;
  prf : tensor
}.

Record TorchZern : Type := {
  z_n : nat;
  nk : nat;
  mtab : list Z
}.

(** The attributes [Zernike.__init__] adds. *)
Record zern : Type := {
  z : TorchZern;
  zpars : list R;
  mode_mask : list Z;
  cache : gmap nat (gmap nat tensor);
  coords : gmap nat (tensor * tensor)
}.

Inductive model : Type :=
| IModel (b : base)
| IGaussian (b : base)
| IMoffat (b : base)
| IAiry (b : base)
| IZernike (b : base) (zn : zern)
| IPRFWrap (submodel : model).

(** The base attributes of an instance; [PRFWrap.__init__] never calls
    [Model.__init__], so a wrapper has none of them. *)
Definition attrs (self : model) : result base :=
  match self with
  | IModel b | IGaussian b | IMoffat b | IAiry b | IZernike b _ => Ok b
  | IPRFWrap _ => Raise AttributeError
  end.

(** ** [Model] *)

Definition base_bounds (n : nat) : bounds_t :=
  replicate n (Fin 0, Infty)
  ++ [ (Fin (-2.0), Fin 2.0); (Fin (-2.0), Fin 2.0); (Fin 0, Infty) ].

(** [Model.__init__] *)
Definition Model_init (shape : nat * nat) (col_ref row_ref : R) (xc yc : list R)
    (bkg0 : R) (loss : Loss) (source : Source) : result base :=
  let '(gy, gx) := _init_grid shape col_ref row_ref in
  let bounds := base_bounds (length xc) in
  p ← make_prf_from_source source;
  Ok {| shape := shape; col_ref := col_ref; row_ref := row_ref;
        xc := xc; yc := yc; bkg0 := bkg0; y := gy; x := gx;
        bounds := bounds; loss := loss; prf := p |}.

(** ** [ModifiedBesselFn] *)

(** The order handed to the primitive: a Python number ([nu = 1], as the
    module's comment intends) or a torch tensor (what [Airy.psf] passes). *)
Inductive order : Type :=
| Number (nu : R)
| Tensor (t : tensor).

(** [nu - 1.0] and [nu + 1.0] keep the kind of [nu]. *)
Definition order_map (f : R -> R) (nu : order) : order :=
  match nu with
  | Number v => Number (f v)
  | Tensor t => Tensor (tmap f t)
  end.

Record ctx : Type := {
  _nu : option order;
  saved_tensors : list tensor
}.

Definition new_ctx : ctx := {| _nu := None; saved_tensors := [] |}.

(** [torch.from_numpy(scipy.special.iv(nu, inp.detach().numpy()))].
    [scipy.special.iv] returns a NumPy array only for a number order and
    an input of dimension at least 1.  For a 0-d input it returns a NumPy
    scalar, and for a torch-tensor order a torch tensor: [from_numpy]
    refuses both with [TypeError].  Operands that do not broadcast are a
    [ValueError] of NumPy.  The context is filled before the call. *)
Definition forward (c : ctx) (inp : tensor) (nu : order) : ctx * result tensor :=
  ({| _nu := Some nu; saved_tensors := [inp] |},
   match nu with
   | Number v =>
       match inp with
       | T0 _ => Raise TypeError
       | _ => Ok (tmap (iv v) inp)
       end
   | Tensor t =>
       match tbin iv t inp with
       | Ok _ => Raise TypeError
       | Raise _ => Raise ValueError
       end
   end).

(** [ModifiedBesselFn.apply]: a fresh context, then [forward]. *)
Definition apply_fn (inp : tensor) (nu : order) : result tensor :=
  snd (forward new_ctx inp nu).

Definition backward (c : ctx) (grad_out : tensor) : result (tensor * option tensor) :=
  inp ← match saved_tensors c with [i] => Ok i | _ => Raise ValueError end;
  nu ← getattr (_nu c);
  h ← tmul (T0 0.5) grad_out;
  im ← apply_fn inp (order_map (fun v => v - 1.0) nu);
  ip ← apply_fn inp (order_map (fun v => v + 1.0) nu);
  s ← tadd im ip;
  r ← tmul h s;
  Ok (r, None).

Definition modified_bessel := apply_fn.

(** [len(self.xc)] *)
Definition nstars (b : base) : nat := length (xc b).

(** ** [Gaussian] *)

Definition with_bounds (b : base) (bs : bounds_t) : base :=
  {| shape := shape b; col_ref := col_ref b; row_ref := row_ref b;
     xc := xc b; yc := yc b; bkg0 := bkg0 b; y := y b; x := x b;
     bounds := bs; loss := loss b; prf := prf b |}.

Definition Gaussian_bounds : bounds_t :=
  [ (Fin 0, Infty); (Fin (-0.5), Fin 0.5); (Fin 0, Infty) ].

Definition Gaussian_init (shape : nat * nat) (col_ref row_ref : R) (xc yc : list R)
    (bkg0 : R) (loss : Loss) (source : Source) : result model :=
  b ← Model_init shape col_ref row_ref xc yc bkg0 loss source;
  Ok (IGaussian (with_bounds b (bounds b ++ Gaussian_bounds))).

Definition Gaussian_get_default_optpars : list R := [1; 0; 1].

(** The quadratic form [a * dx ** 2 + 2 * b * dx * dy + c * dy ** 2],
    added to [start] when there is one ([1. + ...] in [Moffat.psf]). *)
Definition quadratic (start : option tensor) (a b c dx dy : tensor) : result tensor :=
  t1 ← tmul a (tsq dx);
  s0 ← match start with Some o => tadd o t1 | None => Ok t1 end;
  t2a ← tmul (T0 2) b;
  t2b ← tmul t2a dx;
  t2 ← tmul t2b dy;
  s1 ← tadd s0 t2;
  t3 ← tmul c (tsq dy);
  tadd s1 t3.

(** The value of [quadratic] at one pixel. *)
Definition quadratic_at (start : option R) (a b c u v : R) : R :=
  match start with
  | Some o => o + a * u ^ 2 + 2 * b * u * v + c * v ^ 2
  | None => a * u ^ 2 + 2 * b * u * v + c * v ^ 2
  end.

Definition Gaussian_psf (dx dy params : tensor) (j : nat) : result tensor :=
  l ← titer params;
  match l with
  | [a; b; c] =>
      q ← quadratic None a b c dx dy;
      Ok (tmap exp (tmap Ropp q))
  | _ => Raise ValueError
  end.

(** ** [Moffat] *)

Definition Moffat_bounds : bounds_t :=
  [ (Fin 0, Infty); (Fin (-0.5), Fin 0.5); (Fin 0, Infty); (Fin 0.0, Infty) ].

Definition Moffat_init (shape : nat * nat) (col_ref row_ref : R) (xc yc : list R)
    (bkg0 : R) (loss : Loss) (source : Source) : result model :=
  b ← Model_init shape col_ref row_ref xc yc bkg0 loss source;
  Ok (IMoffat (with_bounds b (bounds b ++ Moffat_bounds))).

Definition Moffat_get_default_optpars : list R := [1; 0; 1; 1].

(** [def psf(self, params, dx, dy, j)]: the optical parameters are the
    first positional argument. *)
Definition Moffat_psf (params dx dy : tensor) (j : nat) : result tensor :=
  l ← titer params;
  match l with
  | [a; b; c; beta] =>
      q ← quadratic (Some (T0 1)) a b c dx dy;
      p ← tpow q (tsq beta);
      tdiv (T0 1) p
  | _ => Raise ValueError
  end.

(** ** [Airy] *)

Definition Airy_init (shape : nat * nat) (col_ref row_ref : R) (xc yc : list R)
    (bkg0 : R) (loss : Loss) (source : Source) : result model :=
  b ← Model_init shape col_ref row_ref xc yc bkg0 loss source;
  Ok (IAiry b).

Definition Airy_psf (dx dy params : tensor) (j : nat) : result tensor :=
  let Rn := params in
  s ← tadd (tsq dx) (tsq dy);
  let r := tmap sqrt s in
  pr ← tmul (T0 PI) r;
  bessel_arg ← tdiv pr Rn;
  mb ← modified_bessel (T0 1) (Tensor bessel_arg);
  m2 ← tmul (T0 2) mb;
  q ← tdiv m2 bessel_arg;
  Ok (tsq q).

(** ** [TorchZern] *)

Definition TorchZern_new (n : nat) : TorchZern :=
  {| z_n := n; nk := Zern_nk n; mtab := Zern_mtab n |}.

Definition angular (zz : TorchZern) (j : nat) (theta : tensor) : result tensor :=
  m ← index (mtab zz) j;
  if (0 <=? m)%Z
  then Ok (tmap (fun t => cos (IZR m * t)) theta)
  else Ok (tmap (fun t => sin (IZR (- m) * t)) theta).

(** ** [Zernike] *)

Fixpoint foldM {A S : Type} (f : S -> A -> result S) (s : S) (l : list A) : result S :=
  match l with
  | [] => Ok s
  | a :: l' => s' ← f s a; foldM f s' l'
  end.

Definition zpars_literal : list R :=
  [ 0.2567228; 0.45743718; -0.28847825; 0.2567228; -0.0757324; 0.11844995;
    -0.28847825; 0.45743718; -0.04414153; -0.04167375; 0.2567228;
    0.11844995; -0.0757324; 0.02526562; 0.07075336 ].

Definition get_polar_coords (b : base) (xo yo : R) : result (tensor * tensor) :=
  dx ← tsub (x b) (T0 xo);
  dy ← tsub (y b) (T0 yo);
  s ← tadd (tsq dx) (tsq dy);
  let rho := tmap sqrt s in
  theta ← tbin (fun v u => atan2 v u) dy dx;
  Ok (rho, theta).

(** [(np.abs(zpars) > cutoff).astype(int)] *)
Definition make_mode_mask (zp : list R) (cutoff : R) : list Z :=
  fmap (M:=list) (fun p => if Rlt_dec cutoff (Rabs p) then 1%Z else 0%Z) zp.

Definition truthy (n : Z) : bool := negb (n =? 0)%Z.

(** The body of [for k in range(z.nk)], on the shared dict [cache]. *)
Definition Zernike_mode (zz : TorchZern) (mask : list Z) (shape : nat * nat)
    (theta : tensor) (j : nat) (cache : gmap nat (gmap nat tensor)) (k : nat)
    : result (gmap nat (gmap nat tensor)) :=
  mk ← index mask k;
  if truthy mk then
    zr ← angular zz k theta;
    cj ← getitem cache j;
    Ok (<[j := <[k := zr]> cj]> cache)
  else
    cj ← getitem cache j;
    Ok (<[j := <[k := tzeros shape]> cj]> cache).

(** The body of [for j in range(len(self.xc))]. *)
Definition Zernike_star (b : base) (zz : TorchZern) (mask : list Z)
    (shape : nat * nat) (xc yc : list R)
    (st : gmap nat (gmap nat tensor) * gmap nat (tensor * tensor)) (j : nat)
    : result (gmap nat (gmap nat tensor) * gmap nat (tensor * tensor)) :=
  let '(cache, coords) := st in
  let cache := <[j := ∅]> cache in
  xo ← index xc j;
  yo ← index yc j;
  rt ← get_polar_coords b xo yo;
  let coords := <[j := rt]> coords in
  cache ← foldM (Zernike_mode zz mask shape (snd rt) j) cache (seq 0 (nk zz));
  Ok (cache, coords).

(** [Zernike.__init__] from the assignment of [self.mode_mask] on, as a
    function of the coefficient vector and the cutoff it reads. *)
Definition Zernike_tables (b : base) (zz : TorchZern) (zp : list R) (cutoff : R)
    (shape : nat * nat) (xc yc : list R) : result zern :=
  let mask := make_mode_mask zp cutoff in
  st ← foldM (Zernike_star b zz mask shape xc yc) (∅, ∅) (seq 0 (nstars b));
  Ok {| z := zz; zpars := zp; mode_mask := mask; cache := fst st; coords := snd st |}.

Definition Zernike_init (shape : nat * nat) (col_ref row_ref : R) (xc yc : list R)
    (bkg0 : R) (loss : Loss) (source : Source) (zern_n : nat) : result model :=
  let cutoff := 0 in
  b ← Model_init shape col_ref row_ref xc yc bkg0 loss source;
  let zz := TorchZern_new zern_n in
  let p0 := [1; 0; 0; 1e-3; 0] ++ replicate (nk zz) 0 in
  res_x ← tnc_minimize (prf b) zern_n p0;
  let zpars := drop 5 res_x in
  let zpars := zpars_literal in
  zn ← Zernike_tables b zz zpars cutoff shape xc yc;
  Ok (IZernike b zn).

Definition Zernike_get_default_optpars (zn : zern) : list R :=
  [0.53327668; 0.53815343] ++ zpars zn.

(** [len(t)] and [t[i]] on a tensor. *)
Definition tlen (t : tensor) : result nat :=
  match t with
  | T0 _ => Raise TypeError
  | T1 v => Ok (length v)
  | T2 _ m => Ok (length m)
  end.
Definition tindex (t : tensor) (i : nat) : result tensor :=
  match t with
  | T0 _ => Raise IndexError
  | T1 v => T0 <$> index v i
  | T2 _ m => T1 <$> index m i
  end.

(** [acc += t]: the sum must keep the shape of [acc]. *)
Definition tiadd (acc t : tensor) : result tensor :=
  r ← tadd acc t;
  if decide (tshape r = tshape acc) then Ok r else Raise RuntimeError.

(** The body of [for i in range(len(zpars))] in [Zernike.psf]. *)
Definition Zernike_term (zn : zern) (zp : tensor) (j : nat) (psf_c : tensor) (i : nat)
    : result tensor :=
  b ← index (mode_mask zn) i;
  p ← tindex zp i;
  if truthy b then
    cj ← getitem (cache zn) j;
    t ← getitem cj i;
    pt ← tmul p t;
    tiadd psf_c pt
  else Ok psf_c.

Definition Zernike_psf (self : base) (zn : zern) (dx dy params : tensor) (j : nat)
    : result tensor :=
  ac ← ttake 2 params;
  zp ← tdrop 2 params;
  l ← titer ac;
  match l with
  | [a; c] =>
      let psf_c := tzeros (shape self) in
      n ← tlen zp;
      psf_c ← foldM (Zernike_term zn zp j) psf_c (seq 0 n);
      na ← tmul (tmap Ropp a) (tsq dx);
      cd ← tmul c (tsq dy);
      g ← tsub na cd;
      tmul (tmap exp psf_c) (tmap exp g)
  | _ => Raise ValueError
  end.

(** ** Method dispatch, [PRFWrap] and the base-class methods *)

Fixpoint get_default_optpars (self : model) : result (list R) :=
  match self with
  | IModel _ => Raise AttributeError
  | IGaussian _ => Ok Gaussian_get_default_optpars
  | IMoffat _ => Ok Moffat_get_default_optpars
  | IAiry _ => Raise AttributeError
  | IZernike _ zn => Ok (Zernike_get_default_optpars zn)
  | IPRFWrap submodel => get_default_optpars submodel
  end.

(** [self.psf(a1, a2, a3, j)] with positional arguments.  In
    [PRFWrap.psf] the arguments of [convolve2d] are evaluated from left to
    right: the wrapped density first, then [self.prf]. *)
Fixpoint psf (self : model) (a1 a2 a3 : tensor) (j : nat) : result tensor :=
  match self with
  | IModel _ => Raise AttributeError
  | IGaussian _ => Gaussian_psf a1 a2 a3 j
  | IMoffat _ => Moffat_psf a1 a2 a3 j
  | IAiry _ => Airy_psf a1 a2 a3 j
  | IZernike b zn => Zernike_psf b zn a1 a2 a3 j
  | IPRFWrap submodel =>
      d ← psf submodel a1 a2 a3 j;
      p ← prf <$> attrs (IPRFWrap submodel);
      convolve2d d p
  end.

(** The per-star offsets computed at the start of [Model.evaluate]. *)
Definition offsets (self : model) (xs ys : R) (j : nat) : result (tensor * tensor) :=
  gx ← x <$> attrs self;
  xcs ← xc <$> attrs self;
  xcj ← index xcs j;
  dx ← tsub gx (T0 (xcj + xs));
  gy ← y <$> attrs self;
  ycs ← yc <$> attrs self;
  ycj ← index ycs j;
  dy ← tsub gy (T0 (ycj + ys));
  Ok (dx, dy).

Definition evaluate (self : model) (flux xs ys : R) (params : tensor) (j : nat)
    (norm : bool) : result tensor :=
  d ← offsets self xs ys j;
  let '(dx, dy) := d in
  p ← psf self dx dy params j;
  let psf_sum := if norm then tsum p else T0 1 in
  fp ← tmul (T0 flux) p;
  tdiv fp psf_sum.

(** [Model.mean]; [sum] starts from the integer 0. *)
Definition mean (self : model) (flux : list R) (xshift yshift bkg : R)
    (optpars : tensor) (norm : bool) : result tensor :=
  n ← nstars <$> attrs self;
  terms ← mapM (fun j => fj ← index flux j;
                         evaluate self fj xshift yshift optpars j norm) (seq 0 n);
  s ← foldM tadd (T0 0) terms;
  tadd s (T0 bkg).

(** [np.max(d0)] *)
Definition tmax (t : tensor) : result R :=
  match telems t with
  | [] => Raise ValueError
  | a :: l => Ok (foldl Rmax a l)
  end.

Definition get_default_par (self : model) (d0 : tensor) : result (list R) :=
  mx ← tmax d0;
  n ← nstars <$> attrs self;
  bk ← bkg0 <$> attrs self;
  o ← get_default_optpars self;
  Ok (fmap (M:=list) (Rmult mx) (replicate n 1) ++ [0; 0; bk] ++ o).

Definition get_bounds (self : model) : result bounds_t := bounds <$> attrs self.

(** ** Construction from keyword arguments *)

(** The keyword arguments of a constructor call; [kw_other] lists the
    names of any keyword the module never mentions. *)
Record kwargs : Type := {
  kw_shape : option (nat * nat);
  kw_col_ref : option R;
  kw_row_ref : option R;
  kw_xc : option (list R);
  kw_yc : option (list R);
  kw_bkg0 : option R;
  kw_loss : option Loss;
  kw_source : option Source;
  kw_model : option string;
  kw_zern_n : option nat;
  kw_other : list string
}.

(** The classes the module defines that take the model arguments. *)
Inductive pyclass : Type :=
| CModel | CPRFWrap | CGaussian | CMoffat | CAiry | CZernike.

Definition module_classes : list (string * pyclass) :=
  [ ("Model", CModel); ("PRFWrap", CPRFWrap); ("Gaussian", CGaussian);
    ("Moffat", CMoffat); ("Airy", CAiry); ("Zernike", CZernike) ]%string.

Fixpoint lookup_name (s : string) (l : list (string * pyclass)) : option pyclass :=
  match l with
  | [] => None
  | (n, c) :: l' => if String.eqb s n then Some c else lookup_name s l'
  end.

(** [eval(kwargs.get('model'))] for a missing key or an identifier; an
    identifier that is not one of the model classes is taken as not
    bound. *)
Definition eval_model (name : option string) : result pyclass :=
  match name with
  | None => Raise TypeError
  | Some s =>
      match lookup_name s module_classes with
      | Some c => Ok c
      | None => Raise NameError
      end
  end.

(** A required argument that is missing is a [TypeError]. *)
Definition required {A} (o : option A) : result A :=
  match o with Some a => Ok a | None => Raise TypeError end.

Definition recursion_limit : nat := 1000.

(** A constructor call with keyword arguments; [depth] bounds the nesting of constructor calls as
    the interpreter's recursion limit does. *)
Fixpoint instantiate (depth : nat) (cls : pyclass) (kw : kwargs) : result model :=
  match depth with
  | O => Raise RecursionError
  | S d =>
      match cls with
      | CPRFWrap =>
          c ← eval_model (kw_model kw);
          submodel ← instantiate d c kw;
          Ok (IPRFWrap submodel)
      | _ =>
          shape ← required (kw_shape kw);
          col_ref ← required (kw_col_ref kw);
          row_ref ← required (kw_row_ref kw);
          xc ← required (kw_xc kw);
          yc ← required (kw_yc kw);
          bkg0 ← required (kw_bkg0 kw);
          loss ← required (kw_loss kw);
          source ← required (kw_source kw);
          match cls with
          | CModel => IModel <$> Model_init shape col_ref row_ref xc yc bkg0 loss source
          | CGaussian => Gaussian_init shape col_ref row_ref xc yc bkg0 loss source
          | CMoffat => Moffat_init shape col_ref row_ref xc yc bkg0 loss source
          | CAiry => Airy_init shape col_ref row_ref xc yc bkg0 loss source
          | _ =>
              match kw_model kw, kw_other kw with
              | None, [] =>
                  Zernike_init shape col_ref row_ref xc yc bkg0 loss source
                    (default 4%nat (kw_zern_n kw))
              | _, _ => Raise TypeError
              end
          end
      end
  end.

Definition PRFWrap_init (kw : kwargs) : result model :=
  instantiate recursion_limit CPRFWrap kw.

(** ** Calls on a constructed instance

    No method of the module assigns an attribute of [self] outside
    [__init__]: a call returns its value and leaves the instance as it
    found it. *)

Inductive call : Type :=
| Call_evaluate (flux xs ys : R) (params : tensor) (j : nat) (norm : bool)
| Call_mean (flux : list R) (xshift yshift bkg : R) (optpars : tensor) (norm : bool)
| Call_get_default_par (d0 : tensor)
| Call_get_default_optpars
| Call_psf (a1 a2 a3 : tensor) (j : nat)
| Call_call (flux xs ys : R) (params : tensor) (j : nat) (norm : bool).

Inductive value : Type :=
| VTensor (t : tensor)
| VArray (v : list R).

Definition run (self : model) (c : call) : model * result value :=
  match c with
  | Call_evaluate flux xs ys params j norm =>
      (self, VTensor <$> evaluate self flux xs ys params j norm)
  | Call_mean flux xshift yshift bkg optpars norm =>
      (self, VTensor <$> mean self flux xshift yshift bkg optpars norm)
  | Call_get_default_par d0 => (self, VArray <$> get_default_par self d0)
  | Call_get_default_optpars => (self, VArray <$> get_default_optpars self)
  | Call_psf a1 a2 a3 j => (self, VTensor <$> psf self a1 a2 a3 j)
  | Call_call flux xs ys params j norm =>
      (self, VTensor <$> evaluate self flux xs ys params j norm)
  end.

Definition run_all (self : model) (cs : list call) : model :=
  foldl (fun m c => fst (run m c)) self cs.

(** The instances a constructor call of the module returns. *)
Definition constructed (self : model) : Prop :=
  exists depth cls kw, instantiate depth cls kw = Ok self.

(** What [Model.__init__] leaves in the base attributes. *)
Definition base_inv (b : base) : Prop :=
  y b = fst (_init_grid (shape b) (col_ref b) (row_ref b))
  /\ x b = snd (_init_grid (shape b) (col_ref b) (row_ref b))
  /\ exists extra, bounds b = base_bounds (nstars b) ++ extra.

(** What the loops of [Zernike.__init__] leave in [cache[j]]: one entry
    per mode, an all-zero image for a masked mode and an angular basis
    image otherwise. *)
Definition cache_ok (zz : TorchZern) (mask : list Z) (shape : nat * nat)
    (cache : gmap nat (gmap nat tensor)) (j : nat) : Prop :=
  exists cj, cache !! j = Some cj /\
    forall k mk, (k < nk zz)%nat -> mask !! k = Some mk ->
      exists v, cj !! k = Some v
        /\ (truthy mk = false -> v = tzeros shape)
        /\ (truthy mk = true -> exists theta, angular zz k theta = Ok v).

End Models.

(** ** Sample inputs *)

(** A 2 x 3 cutout at offset (10, 20) with two stars. *)
Definition sample_kw : kwargs (E := sample_env) := {|
  kw_shape := Some (2, 3)%nat;
  kw_col_ref := Some 20;
  kw_row_ref := Some 10;
  kw_xc := Some [21; 22];
  kw_yc := Some [10; 11];
  kw_bkg0 := Some 2;
  kw_loss := Some (tt : @Loss sample_env);
  kw_source := Some (tt : @Source sample_env);
  kw_model := None;
  kw_zern_n := None;
  kw_other := []
|}.

(** What [Model.__init__] assigns on the sample arguments. *)
Definition sample_base : base (E := sample_env) := {|
  shape := (2, 3)%nat; col_ref := 20; row_ref := 10;
  xc := [21; 22]; yc := [10; 11]; bkg0 := 2;
  y := fst (_init_grid (2, 3)%nat 20 10);
  x := snd (_init_grid (2, 3)%nat 20 10);
  bounds := base_bounds 2;
  loss := (tt : @Loss sample_env);
  prf := T2 1 [[1]]
|}.

Definition sample_gaussian_base : base (E := sample_env) :=
  with_bounds sample_base (bounds sample_base ++ Gaussian_bounds).
Definition sample_gaussian : model (E := sample_env) := IGaussian sample_gaussian_base.




Definition sample_moffat_base : base (E := sample_env) :=
  with_bounds sample_base (bounds sample_base ++ Moffat_bounds).
Definition sample_moffat : model (E := sample_env) := IMoffat sample_moffat_base.

(** The keyword arguments of a wrapper around the Gaussian model. *)
Definition sample_kw_wrap : kwargs (E := sample_env) := {|
  kw_shape := Some (2, 3)%nat;
  kw_col_ref := Some 20;
  kw_row_ref := Some 10;
  kw_xc := Some [21; 22];
  kw_yc := Some [10; 11];
  kw_bkg0 := Some 2;
  kw_loss := Some (tt : @Loss sample_env);
  kw_source := Some (tt : @Source sample_env);
  kw_model := Some "Gaussian"%string;
  kw_zern_n := None;
  kw_other := []
|}.

(** ** Bounds as constraints *)

(** [lo <= v <= hi] for one row of the bounds table. *)
Definition in_bound (v : R) (row : bound * bound) : Prop :=
  match row with
  | (Fin lo, Fin hi) => lo <= v <= hi
  | (Fin lo, Infty) => lo <= v
  | (Infty, _) => False
  end.

Definition within_bounds (v : list R) (bs : bounds_t) : Prop := Forall2 in_bound v bs.

(** ** The other methods of [TorchZern] *)

(** [functools.reduce] without an initial value. *)
Definition reduce {A} (f : A -> A -> result A) (l : list A) : result A :=
  match l with
  | [] => Raise TypeError
  | a :: l' => foldM f a l'
  end.

(** [TorchZern.Rnm]; [rhotab] is [self.rhotab], the table of radial
    coefficients of the [zernike] package, highest power first. *)
Definition Rnm (rhotab : list (list R)) (k : nat) (rho : tensor) : result tensor :=
  row ← index rhotab k;
  reduce (fun c r => cr ← tmul c rho; tadd cr r) (fmap (M:=list) T0 row).

(** The polynomial with coefficients [row], highest power first. *)
Fixpoint polyval (row : list R) (x : R) : R :=
  match row with
  | [] => 0
  | c :: row' => c * x ^ length row' + polyval row' x
  end.

(** [TorchZern.ck]; [noll] is [self.normalise == self.NORM_NOLL]. *)
Definition ck (noll : bool) (n m : Z) : R :=
  if noll then
    if (m =? 0)%Z then sqrt (IZR n + 1.0) else sqrt (2.0 * (IZR n + 1.0))
  else 1.0.

(** ** More sample inputs *)

(** The sample keyword arguments with another [model]. *)
Definition sample_kw_model (name : string) : kwargs (E := sample_env) := {|
  kw_shape := kw_shape sample_kw;
  kw_col_ref := kw_col_ref sample_kw;
  kw_row_ref := kw_row_ref sample_kw;
  kw_xc := kw_xc sample_kw;
  kw_yc := kw_yc sample_kw;
  kw_bkg0 := kw_bkg0 sample_kw;
  kw_loss := kw_loss sample_kw;
  kw_source := kw_source sample_kw;
  kw_model := Some name;
  kw_zern_n := None;
  kw_other := []
|}.

(** One star's cache holds well-formed images of shape [shp] for the
    modes below [n], and nothing else. *)
Definition modes_shaped (n : nat) (shp : list nat) (cj : gmap nat tensor) : Prop :=
  (forall k, (k < n)%nat -> exists v, cj !! k = Some v /\ tshape v = shp /\ twf v)
  /\ (forall k, (n <= k)%nat -> cj !! k = None).

Definition star_shaped (n : nat) (shp : list nat)
    (cache : gmap nat (gmap nat tensor)) (j : nat) : Prop :=
  exists cj, cache !! j = Some cj /\ modes_shaped n shp cj.

Section Properties.
Context `{E : Env}.

(** * Properties *)

(** ** The result monad *)

Lemma index_Some {A} (l : list A) (i : nat) (a : A) :
  l !! i = Some a -> index l i = Ok a.
Proof. intros H. unfold index. now rewrite H. Qed.

Lemma index_Ok {A} (l : list A) (i : nat) (a : A) :
  index l i = Ok a -> l !! i = Some a.
Proof. unfold index. destruct (l !! i); congruence. Qed.

Lemma foldM_ext_in {A S} (f g : S -> A -> result S) (l : list A) :
  (forall s a, In a l -> f s a = g s a) ->
  forall s, foldM f s l = foldM g s l.
Proof.
  induction l as [|a l IH]; intros Hfg s; simpl; [reflexivity|].
  rewrite (Hfg s a) by (now left).
  destruct (g s a) as [s'|e]; simpl; [|reflexivity].
  apply IH. intros s0 a0 Hin. apply Hfg. now right.
Qed.

Lemma mapM_ext_in {A B} (f g : A -> result B) (l : list A) :
  (forall a, In a l -> f a = g a) -> mapM f l = mapM g l.
Proof.
  induction l as [|a l IH]; intros Hfg; simpl; [reflexivity|].
  rewrite (Hfg a) by (now left).
  rewrite IH; [reflexivity|]. intros a0 Hin. apply Hfg. now right.
Qed.

(** ** The coordinate grid *)

Lemma mgrid_axis_length (start stop : R) (num : nat) :
  length (mgrid_axis start stop num) = num.
Proof. unfold mgrid_axis. now rewrite length_fmap, length_seq. Qed.

Lemma mgrid_axis_lookup (start : R) (num k : nat) :
  (k < num)%nat ->
  mgrid_axis start (start + INR num - 1) num !! k = Some (start + INR k).
Proof.
  intros Hk. unfold mgrid_axis.
  rewrite list_lookup_fmap.
  assert (Hs : seq 0 num !! k = Some k) by (apply lookup_seq; lia).
  rewrite Hs. simpl. f_equal.
  destruct (Nat.eqb_spec num 1) as [->|Hne].
  - lra.
  - assert (INR num - 1 <> 0).
    { intros Heq. apply Hne. apply INR_eq. simpl. lra. }
    field. assumption.
Qed.

Lemma _init_grid_shape (s1 s2 : nat) (col_ref row_ref : R) :
  tshape (fst (_init_grid (s1, s2) col_ref row_ref)) = [s1; s2]
  /\ tshape (snd (_init_grid (s1, s2) col_ref row_ref)) = [s1; s2].
Proof.
  unfold _init_grid, mgrid2. simpl.
  now rewrite length_fmap, mgrid_axis_length, length_replicate.
Qed.

Lemma _init_grid_wf (s1 s2 : nat) (col_ref row_ref : R) :
  twf (fst (_init_grid (s1, s2) col_ref row_ref))
  /\ twf (snd (_init_grid (s1, s2) col_ref row_ref)).
Proof.
  unfold _init_grid, mgrid2. simpl. split.
  - apply Forall_fmap, Forall_forall. intros v _. simpl. apply length_replicate.
  - apply Forall_replicate. apply mgrid_axis_length.
Qed.

Lemma _init_grid_y (s1 s2 : nat) (col_ref row_ref : R) (i j : nat) :
  (i < s1)%nat -> (j < s2)%nat ->
  tget2 (fst (_init_grid (s1, s2) col_ref row_ref)) i j = Ok (row_ref + INR i).
Proof.
  intros Hi Hj. unfold _init_grid, mgrid2. simpl.
  unfold index. rewrite list_lookup_fmap, mgrid_axis_lookup by assumption.
  simpl. now rewrite lookup_replicate_2.
Qed.

Lemma _init_grid_x (s1 s2 : nat) (col_ref row_ref : R) (i j : nat) :
  (i < s1)%nat -> (j < s2)%nat ->
  tget2 (snd (_init_grid (s1, s2) col_ref row_ref)) i j = Ok (col_ref + INR j).
Proof.
  intros Hi Hj. unfold _init_grid, mgrid2. simpl.
  unfold index. rewrite lookup_replicate_2 by assumption.
  simpl. now rewrite mgrid_axis_lookup.
Qed.

Lemma tget2_tmap (f : R -> R) (t : tensor) (i j : nat) (v : R) :
  tget2 t i j = Ok v -> tget2 (tmap f t) i j = Ok (f v).
Proof.
  destruct t as [a|u|c m]; simpl; try discriminate.
  unfold index. rewrite list_lookup_fmap.
  destruct (m !! i) as [r|]; simpl; [|discriminate].
  rewrite list_lookup_fmap.
  destruct (r !! j) as [w|]; simpl; congruence.
Qed.

Lemma tshape_tmap (f : R -> R) (t : tensor) : tshape (tmap f t) = tshape t.
Proof. destruct t; simpl; now rewrite ?length_fmap. Qed.

Lemma twf_tmap (f : R -> R) (t : tensor) : twf t -> twf (tmap f t).
Proof.
  destruct t as [a|u|c m]; simpl; trivial.
  intros H. apply Forall_fmap. eapply Forall_impl; [exact H|].
  intros r Hr. simpl. now rewrite length_fmap.
Qed.

(** ** Construction *)

Lemma Model_init_Ok (sh : nat * nat) (cr rr : R) (sx sy : list R)
    (bk : R) (ls : Loss) (src : Source) (b : base) :
  Model_init sh cr rr sx sy bk ls src = Ok b ->
  shape b = sh /\ col_ref b = cr /\ row_ref b = rr /\ xc b = sx /\ yc b = sy
  /\ bkg0 b = bk /\ y b = fst (_init_grid sh cr rr) /\ x b = snd (_init_grid sh cr rr)
  /\ bounds b = base_bounds (length sx)
  /\ make_prf_from_source src = Ok (prf b).
Proof.
  unfold Model_init. destruct (_init_grid sh cr rr) as [gy gx].
  destruct (make_prf_from_source src) as [p|e]; simpl; [|discriminate].
  intros [= <-]. simpl. repeat split; reflexivity.
Qed.

Lemma Model_init_total (sh : nat * nat) (cr rr : R) (sx sy : list R)
    (bk : R) (ls : Loss) (src : Source) (p : tensor) :
  make_prf_from_source src = Ok p ->
  exists b, Model_init sh cr rr sx sy bk ls src = Ok b.
Proof.
  intros Hp. unfold Model_init. destruct (_init_grid sh cr rr) as [gy gx].
  rewrite Hp. simpl. eauto.
Qed.

Lemma Model_init_inv (sh : nat * nat) (cr rr : R) (sx sy : list R)
    (bk : R) (ls : Loss) (src : Source) (b : base) (extra : bounds_t) :
  Model_init sh cr rr sx sy bk ls src = Ok b ->
  base_inv b /\ base_inv (with_bounds b (bounds b ++ extra)).
Proof.
  intros H. apply Model_init_Ok in H.
  destruct H as (Hs & Hc & Hr & Hx & Hy & _ & Hgy & Hgx & Hb & _).
  unfold base_inv, nstars. simpl. rewrite Hs, Hc, Hr, Hx, Hgy, Hgx, Hb.
  repeat split; try reflexivity.
  - exists []. now rewrite app_nil_r.
  - exists extra. reflexivity.
Qed.

Lemma instantiate_inv (depth : nat) :
  forall cls kw self b,
    instantiate depth cls kw = Ok self -> attrs self = Ok b -> base_inv b.
Proof.
  induction depth as [|d IH]; intros cls kw self b; simpl; [discriminate|].
  destruct cls.
  2:{ destruct (eval_model (kw_model kw)) as [c|]; simpl; [|discriminate].
      destruct (instantiate d c kw); simpl; [|discriminate].
      intros [= <-]. simpl. discriminate. }
  all: destruct (kw_shape kw) as [sh|]; simpl; [|discriminate].
  all: destruct (kw_col_ref kw) as [cr|]; simpl; [|discriminate].
  all: destruct (kw_row_ref kw) as [rr|]; simpl; [|discriminate].
  all: destruct (kw_xc kw) as [sx|]; simpl; [|discriminate].
  all: destruct (kw_yc kw) as [sy|]; simpl; [|discriminate].
  all: destruct (kw_bkg0 kw) as [bk|]; simpl; [|discriminate].
  all: destruct (kw_loss kw) as [ls|]; simpl; [|discriminate].
  all: destruct (kw_source kw) as [src|]; simpl; [|discriminate].
  - destruct (Model_init sh cr rr sx sy bk ls src) as [b0|] eqn:Hb; simpl; [|discriminate].
    intros [= <-]. simpl. intros [= <-].
    now apply (Model_init_inv _ _ _ _ _ _ _ _ _ []) in Hb.
  - unfold Gaussian_init.
    destruct (Model_init sh cr rr sx sy bk ls src) as [b0|] eqn:Hb; simpl; [|discriminate].
    intros [= <-]. simpl. intros [= <-].
    now apply (Model_init_inv _ _ _ _ _ _ _ _ _ Gaussian_bounds) in Hb.
  - unfold Moffat_init.
    destruct (Model_init sh cr rr sx sy bk ls src) as [b0|] eqn:Hb; simpl; [|discriminate].
    intros [= <-]. simpl. intros [= <-].
    now apply (Model_init_inv _ _ _ _ _ _ _ _ _ Moffat_bounds) in Hb.
  - unfold Airy_init.
    destruct (Model_init sh cr rr sx sy bk ls src) as [b0|] eqn:Hb; simpl; [|discriminate].
    intros [= <-]. simpl. intros [= <-].
    now apply (Model_init_inv _ _ _ _ _ _ _ _ _ []) in Hb.
  - destruct (kw_model kw); [discriminate|].
    destruct (kw_other kw); [|discriminate].
    unfold Zernike_init.
    destruct (Model_init sh cr rr sx sy bk ls src) as [b0|] eqn:Hb; simpl; [|discriminate].
    destruct (tnc_minimize _ _ _); simpl; [|discriminate].
    destruct (Zernike_tables _ _ _ _ _ _ _); simpl; [|discriminate].
    intros [= <-]. simpl. intros [= <-].
    now apply (Model_init_inv _ _ _ _ _ _ _ _ _ []) in Hb.
Qed.

Lemma constructed_inv (self : model) (b : base) :
  constructed self -> attrs self = Ok b -> base_inv b.
Proof. intros (d & cls & kw & H). now apply (instantiate_inv d cls kw self). Qed.

Lemma offsets_Ok (self : model) (b : base) (xs ys : R) (k : nat) (xck yck : R) :
  attrs self = Ok b -> xc b !! k = Some xck -> yc b !! k = Some yck ->
  offsets self xs ys k
  = Ok (tmap (fun v => v - (xck + xs)) (x b), tmap (fun v => v - (yck + ys)) (y b)).
Proof.
  intros Ha Hx Hy. unfold offsets. rewrite Ha. simpl.
  rewrite (index_Some _ _ _ Hx), (index_Some _ _ _ Hy). simpl.
  unfold tsub, tbin.
  destruct (x b), (y b); reflexivity.
Qed.

(** C8: construction builds two grids [y], [x] of the cutout shape with
    [y[i,j] = row_ref + i] and [x[i,j] = col_ref + j], and [evaluate]
    passes to the shape model the offsets [dx = x - (xc[k] + xshift)] and
    [dy = y - (yc[k] + yshift)] of star [k]. *)
Theorem grid_and_offsets (self : model) (b : base) (s1 s2 i j k : nat)
    (xck yck flux xs ys : R) (params : tensor) (norm : bool) :
  constructed self -> attrs self = Ok b -> shape b = (s1, s2) ->
  (i < s1)%nat -> (j < s2)%nat ->
  xc b !! k = Some xck -> yc b !! k = Some yck ->
  tshape (y b) = [s1; s2] /\ tshape (x b) = [s1; s2]
  /\ tget2 (y b) i j = Ok (row_ref b + INR i)
  /\ tget2 (x b) i j = Ok (col_ref b + INR j)
  /\ exists dx dy,
       offsets self xs ys k = Ok (dx, dy)
       /\ tshape dx = [s1; s2] /\ tshape dy = [s1; s2]
       /\ tget2 dx i j = Ok (col_ref b + INR j - (xck + xs))
       /\ tget2 dy i j = Ok (row_ref b + INR i - (yck + ys))
       /\ evaluate self flux xs ys params k norm
          = (p ← psf self dx dy params k;
             fp ← tmul (T0 flux) p;
             tdiv fp (if norm then tsum p else T0 1)).
Proof.
  intros Hc Ha Hs Hi Hj Hx Hy.
  destruct (constructed_inv _ _ Hc Ha) as (Hgy & Hgx & _).
  rewrite Hs in Hgy, Hgx.
  destruct (_init_grid_shape s1 s2 (col_ref b) (row_ref b)) as [Sy Sx].
  pose proof (_init_grid_y s1 s2 (col_ref b) (row_ref b) i j Hi Hj) as Gy.
  pose proof (_init_grid_x s1 s2 (col_ref b) (row_ref b) i j Hi Hj) as Gx.
  rewrite <- Hgy in Sy, Gy. rewrite <- Hgx in Sx, Gx.
  repeat split; try assumption.
  eexists _, _. split; [exact (offsets_Ok _ _ xs ys _ _ _ Ha Hx Hy)|].
  rewrite !tshape_tmap.
  repeat split; try assumption.
  - now apply (tget2_tmap (fun v => v - (xck + xs))).
  - now apply (tget2_tmap (fun v => v - (yck + ys))).
  - unfold evaluate. rewrite (offsets_Ok _ _ _ _ _ _ _ Ha Hx Hy). reflexivity.
Qed.

(** ** Bounds *)

Lemma run_fst (self : model) (c : call) : fst (run self c) = self.
Proof. destruct c; reflexivity. Qed.

Lemma run_all_id (self : model) (cs : list call) : run_all self cs = self.
Proof.
  unfold run_all. induction cs as [|c cs IH]; simpl; [reflexivity|].
  now rewrite run_fst.
Qed.

Lemma base_bounds_length (n : nat) : length (base_bounds n) = (n + 3)%nat.
Proof. unfold base_bounds. rewrite length_app, length_replicate. reflexivity. Qed.

Lemma base_bounds_flux (n i : nat) :
  (i < n)%nat -> base_bounds n !! i = Some (Fin 0, Infty).
Proof.
  intros Hi. unfold base_bounds.
  rewrite lookup_app_l by (now rewrite length_replicate).
  now apply lookup_replicate_2.
Qed.

Lemma base_bounds_shared (n i : nat) :
  base_bounds n !! (n + i)%nat
  = [ (Fin (-2.0), Fin 2.0); (Fin (-2.0), Fin 2.0); (Fin 0, Infty) ] !! i.
Proof.
  unfold base_bounds.
  rewrite lookup_app_r by (rewrite length_replicate; lia).
  rewrite length_replicate. f_equal. lia.
Qed.

(** C10 (code defect): a constructed instance of [Model], [Gaussian],
    [Moffat], [Airy] or [Zernike] has a bounds table whose rows after the
    per-star flux rows are [-2.0, 2.0], [-2.0, 2.0] and [0, +infinity),
    and calls on the instance leave the table as it is.  A constructed
    [PRFWrap] never ran [Model.__init__]: it has no bounds table, and
    reading [bounds] raises [AttributeError], before and after any calls. *)
Theorem shared_bounds_rows (self : model) (cs : list call) :
  constructed self ->
  (exists sub, self = IPRFWrap sub
     /\ get_bounds self = Raise AttributeError
     /\ get_bounds (run_all self cs) = Raise AttributeError)
  \/ (exists b, attrs self = Ok b
        /\ get_bounds self = Ok (bounds b)
        /\ (forall i, (i < nstars b)%nat -> bounds b !! i = Some (Fin 0, Infty))
        /\ bounds b !! nstars b = Some (Fin (-2.0), Fin 2.0)
        /\ bounds b !! (nstars b + 1)%nat = Some (Fin (-2.0), Fin 2.0)
        /\ bounds b !! (nstars b + 2)%nat = Some (Fin 0, Infty)
        /\ get_bounds (run_all self cs) = Ok (bounds b)).
Proof.
  intros Hc. destruct (attrs self) as [b|e] eqn:Ha.
  - right. exists b. split; [reflexivity|].
    destruct (constructed_inv _ _ Hc Ha) as (_ & _ & extra & Hbs).
    assert (Hg : get_bounds self = Ok (bounds b)).
    { unfold get_bounds. now rewrite Ha. }
    assert (Hl : forall i, (i < nstars b + 3)%nat ->
               bounds b !! i = base_bounds (nstars b) !! i).
    { intros i Hi. rewrite Hbs. apply lookup_app_l.
      rewrite base_bounds_length. exact Hi. }
    split; [exact Hg|]. split; [|split; [|split; [|split]]].
    + intros i Hi. rewrite Hl by lia. now apply base_bounds_flux.
    + rewrite Hl by lia. pose proof (base_bounds_shared (nstars b) 0) as H0.
      rewrite Nat.add_0_r in H0. now rewrite H0.
    + rewrite Hl by lia. now rewrite base_bounds_shared.
    + rewrite Hl by lia. now rewrite base_bounds_shared.
    + now rewrite run_all_id.
  - left. destruct self; try discriminate. exists self.
    split; [reflexivity|]. rewrite run_all_id. split; reflexivity.
Qed.

(** ** Tensors of one shape *)

Lemma bdim_same (n : nat) : bdim n n = Ok n.
Proof. unfold bdim. now rewrite Nat.eqb_refl. Qed.

Lemma brow_same (f : R -> R -> R) (u v : list R) :
  length u = length v -> brow f u v = zip_with f u v.
Proof. intros H. unfold brow. now rewrite H, Nat.eqb_refl. Qed.

Lemma zip_with_brow (f : R -> R -> R) (c : nat) (m1 m2 : list (list R)) :
  Forall (fun r => length r = c) m1 -> Forall (fun r => length r = c) m2 ->
  zip_with (brow f) m1 m2 = zip_with (zip_with f) m1 m2.
Proof.
  intros H1. revert m2. induction H1 as [|r1 m1 Hr1 _ IH]; intros m2 H2.
  - reflexivity.
  - destruct H2 as [|r2 m2 Hr2 H2]; simpl; [reflexivity|].
    rewrite brow_same by congruence. f_equal. now apply IH.
Qed.

Lemma brows_same (f : R -> R -> R) (c : nat) (m1 m2 : list (list R)) :
  length m1 = length m2 ->
  Forall (fun r => length r = c) m1 -> Forall (fun r => length r = c) m2 ->
  brows f m1 m2 = zip_with (zip_with f) m1 m2.
Proof.
  intros Hl H1 H2. unfold brows. rewrite Hl, Nat.eqb_refl.
  now apply zip_with_brow with c.
Qed.

Lemma tbin_same (f : R -> R -> R) (t1 t2 : tensor) :
  tshape t1 = tshape t2 -> twf t1 -> twf t2 -> tbin f t1 t2 = Ok (tzip f t1 t2).
Proof.
  destruct t1 as [a|u|c1 m1], t2 as [b|v|c2 m2]; simpl; try discriminate;
    try reflexivity.
  - intros [= Hl] _ _. rewrite Hl, bdim_same. simpl. now rewrite brow_same.
  - intros [= Hl Hc] H1 H2. subst c2. rewrite bdim_same, Hl, bdim_same. simpl.
    now rewrite (brows_same f c1).
Qed.

Lemma tshape_tzip (f : R -> R -> R) (t1 t2 : tensor) :
  tshape t1 = tshape t2 -> tshape (tzip f t1 t2) = tshape t1.
Proof.
  destruct t1 as [a|u|c1 m1], t2 as [b|v|c2 m2]; simpl; try discriminate;
    try reflexivity.
  - intros [= Hl]. rewrite length_zip_with, Hl. f_equal. lia.
  - intros [= Hl Hc]. rewrite length_zip_with, Hl. f_equal. lia.
Qed.

Lemma twf_tzip (f : R -> R -> R) (t1 t2 : tensor) :
  tshape t1 = tshape t2 -> twf t1 -> twf t2 -> twf (tzip f t1 t2).
Proof.
  destruct t1 as [a|u|c1 m1], t2 as [b|v|c2 m2]; simpl; try discriminate;
    trivial.
  intros [= _ Hc] H1. subst c2. revert m2.
  induction H1 as [|r1 m1 Hr1 _ IH]; intros m2 H2; simpl; [constructor|].
  destruct H2 as [|r2 m2 Hr2 H2]; constructor.
  - rewrite length_zip_with. lia.
  - now apply IH.
Qed.

Lemma zip_with_fmap3 (h A B : R -> R) (g x : list R) :
  zip_with Rmult (h <$> g) (zip_with Rplus (A <$> x) (B <$> x))
  = zip_with (fun gi xi => h gi * (A xi + B xi)) g x.
Proof.
  revert x. induction g as [|gi g IH]; intros [|xi x]; simpl; try reflexivity.
  f_equal. apply IH.
Qed.

Lemma zip_with_fmap3_rows (h A B : R -> R) (g x : list (list R)) :
  zip_with (zip_with Rmult) (fmap (M:=list) h <$> g)
    (zip_with (zip_with Rplus) (fmap (M:=list) A <$> x) (fmap (M:=list) B <$> x))
  = zip_with (zip_with (fun gi xi => h gi * (A xi + B xi))) g x.
Proof.
  revert x. induction g as [|gi g IH]; intros [|xi x]; simpl; try reflexivity.
  f_equal; [apply zip_with_fmap3 | apply IH].
Qed.

(** ** The modified-Bessel primitive *)

Lemma apply_fn_number (x : tensor) (nu : R) :
  tshape x <> [] -> apply_fn x (Number nu) = Ok (tmap (iv nu) x).
Proof. destruct x; simpl; [congruence|reflexivity|reflexivity]. Qed.

(** A 0-d input is refused, whatever the order. *)
Lemma apply_fn_scalar_input (v : R) (nu : order) :
  apply_fn (T0 v) nu = Raise TypeError.
Proof.
  destruct nu as [n|t]; [reflexivity|].
  unfold apply_fn, forward. cbn [snd]. destruct t; reflexivity.
Qed.

(** A torch-tensor order is refused, whatever the input. *)
Lemma apply_fn_tensor_order (x t r : tensor) : apply_fn x (Tensor t) <> Ok r.
Proof.
  unfold apply_fn, forward. cbn [snd]. destruct (tbin iv t x); discriminate.
Qed.

Lemma sum_times (h A B : R -> R) (g x : tensor) :
  tshape g = tshape x -> twf g -> twf x ->
  (s ← tadd (tmap A x) (tmap B x); tmul (tmap h g) s)
  = Ok (tzip (fun gi xi => h gi * (A xi + B xi)) g x).
Proof.
  intros Hs Hg Hx. unfold tadd, tmul.
  rewrite (tbin_same Rplus) by (rewrite ?tshape_tmap; auto using twf_tmap).
  simpl.
  rewrite (tbin_same Rmult).
  - f_equal.
    destruct g as [a|u|c1 m1], x as [b|v|c2 m2]; simpl in *; try discriminate.
    + reflexivity.
    + now rewrite zip_with_fmap3.
    + now rewrite zip_with_fmap3_rows.
  - rewrite tshape_tzip, !tshape_tmap by (now rewrite !tshape_tmap). exact Hs.
  - now apply twf_tmap.
  - apply twf_tzip; rewrite ?tshape_tmap; auto using twf_tmap.
Qed.


(** ** Pointwise form of tensor expressions over two tensors of one shape *)

Lemma zip_with_zip_with (f F G : R -> R -> R) (u v : list R) :
  zip_with f (zip_with F u v) (zip_with G u v)
  = zip_with (fun a b => f (F a b) (G a b)) u v.
Proof.
  revert v. induction u as [|a u IH]; intros [|b v]; simpl; try reflexivity.
  f_equal. apply IH.
Qed.

Lemma fmap_zip_with_R (f : R -> R) (F : R -> R -> R) (u v : list R) :
  f <$> zip_with F u v = zip_with (fun a b => f (F a b)) u v.
Proof.
  revert v. induction u as [|a u IH]; intros [|b v]; simpl; try reflexivity.
  f_equal. apply IH.
Qed.

Lemma fmap_as_zip_l (f : R -> R) (u v : list R) :
  length u = length v -> f <$> u = zip_with (fun a _ => f a) u v.
Proof.
  revert v. induction u as [|a u IH]; intros [|b v]; simpl; try discriminate;
    try reflexivity.
  intros [= H]. f_equal. now apply IH.
Qed.

Lemma fmap_as_zip_r (f : R -> R) (u v : list R) :
  length u = length v -> f <$> v = zip_with (fun _ b => f b) u v.
Proof.
  revert v. induction u as [|a u IH]; intros [|b v]; simpl; try discriminate;
    try reflexivity.
  intros [= H]. f_equal. now apply IH.
Qed.

Lemma zip_with_ext_R (F G : R -> R -> R) (u v : list R) :
  (forall a b, F a b = G a b) -> zip_with F u v = zip_with G u v.
Proof.
  intros H. revert v. induction u as [|a u IH]; intros [|b v]; simpl;
    try reflexivity.
  rewrite H. f_equal. apply IH.
Qed.

Lemma tzip_tzip (f F G : R -> R -> R) (dx dy : tensor) :
  tshape dx = tshape dy ->
  tzip f (tzip F dx dy) (tzip G dx dy) = tzip (fun a b => f (F a b) (G a b)) dx dy.
Proof.
  destruct dx as [a|u|c1 m1], dy as [b|v|c2 m2]; simpl; try discriminate;
    try reflexivity; intros _.
  - now rewrite zip_with_zip_with.
  - f_equal. revert m2. induction m1 as [|r1 m1 IH]; intros [|r2 m2]; simpl;
      try reflexivity.
    rewrite zip_with_zip_with. f_equal. apply IH.
Qed.

Lemma tmap_tzip (f : R -> R) (F : R -> R -> R) (dx dy : tensor) :
  tshape dx = tshape dy ->
  tmap f (tzip F dx dy) = tzip (fun a b => f (F a b)) dx dy.
Proof.
  destruct dx as [a|u|c1 m1], dy as [b|v|c2 m2]; simpl; try discriminate;
    try reflexivity; intros _.
  - now rewrite fmap_zip_with_R.
  - f_equal. revert m2. induction m1 as [|r1 m1 IH]; intros [|r2 m2]; simpl;
      try reflexivity.
    rewrite fmap_zip_with_R. f_equal. apply IH.
Qed.

Lemma tmap_as_tzip_l (f : R -> R) (dx dy : tensor) :
  tshape dx = tshape dy -> twf dx -> twf dy ->
  tmap f dx = tzip (fun a _ => f a) dx dy.
Proof.
  destruct dx as [a|u|c1 m1], dy as [b|v|c2 m2]; simpl; try discriminate;
    try reflexivity.
  - intros [= H] _ _. now rewrite (fmap_as_zip_l f u v).
  - intros [= Hl Hc] H1 H2. subst c2. f_equal.
    revert m2 Hl H2. induction H1 as [|r1 m1 Hr1 _ IH]; intros [|r2 m2] Hl H2;
      simpl in *; try discriminate; try reflexivity.
    inversion H2; subst. rewrite (fmap_as_zip_l f r1 r2) by congruence.
    f_equal. apply IH; [congruence|assumption].
Qed.

Lemma tmap_as_tzip_r (f : R -> R) (dx dy : tensor) :
  tshape dx = tshape dy -> twf dx -> twf dy ->
  tmap f dy = tzip (fun _ b => f b) dx dy.
Proof.
  destruct dx as [a|u|c1 m1], dy as [b|v|c2 m2]; simpl; try discriminate;
    try reflexivity.
  - intros [= H] _ _. now rewrite (fmap_as_zip_r f u v).
  - intros [= Hl Hc] H1 H2. subst c2. f_equal.
    revert m2 Hl H2. induction H1 as [|r1 m1 Hr1 _ IH]; intros [|r2 m2] Hl H2;
      simpl in *; try discriminate; try reflexivity.
    inversion H2; subst. rewrite (fmap_as_zip_r f r1 r2) by congruence.
    f_equal. apply IH; [congruence|assumption].
Qed.

Lemma tmap_ext (f g : R -> R) (t : tensor) :
  (forall a, f a = g a) -> tmap f t = tmap g t.
Proof.
  intros H. destruct t as [a|u|c m]; simpl.
  - now rewrite H.
  - f_equal. apply list_fmap_ext. intros _ x _. apply H.
  - f_equal. apply list_fmap_ext. intros _ r _. apply list_fmap_ext.
    intros _ x _. apply H.
Qed.

Lemma tmap_tmap (f g : R -> R) (t : tensor) :
  tmap f (tmap g t) = tmap (fun a => f (g a)) t.
Proof.
  destruct t as [a|u|c m]; simpl; [reflexivity| |].
  - now rewrite <- list_fmap_compose.
  - f_equal. rewrite <- list_fmap_compose. apply list_fmap_ext.
    intros _ r _. simpl. now rewrite <- list_fmap_compose.
Qed.

Lemma tzip_ext (F G : R -> R -> R) (dx dy : tensor) :
  (forall a b, F a b = G a b) -> tzip F dx dy = tzip G dx dy.
Proof.
  intros H.
  destruct dx as [a|u|c1 m1], dy as [b|v|c2 m2]; simpl; try reflexivity;
    try (apply (tmap_ext (F a) (G a) (T0 b)); intros; apply H);
    try (apply (tmap_ext (F a) (G a) (T1 v)); intros; apply H);
    try (apply (tmap_ext (F a) (G a) (T2 c2 m2)); intros; apply H);
    try (apply (tmap_ext (fun a => F a b) (fun a => G a b) (T1 u)); intros; apply H);
    try (apply (tmap_ext (fun a => F a b) (fun a => G a b) (T2 c1 m1)); intros; apply H).
  - f_equal. now apply zip_with_ext_R.
  - f_equal. revert m2. induction m1 as [|r1 m1 IH]; intros [|r2 m2]; simpl;
      try reflexivity.
    rewrite (zip_with_ext_R F G) by exact H. f_equal. apply IH.
Qed.

(** A binary operation on two pointwise expressions over [dx] and [dy]. *)
Lemma tbin_pointwise (f F G : R -> R -> R) (dx dy : tensor) :
  tshape dx = tshape dy -> twf dx -> twf dy ->
  tbin f (tzip F dx dy) (tzip G dx dy)
  = Ok (tzip (fun a b => f (F a b) (G a b)) dx dy).
Proof.
  intros Hs H1 H2.
  rewrite tbin_same.
  - now rewrite tzip_tzip.
  - now rewrite !tshape_tzip.
  - now apply twf_tzip.
  - now apply twf_tzip.
Qed.

Lemma tmap_id (t : tensor) : tmap (fun a => a) t = t.
Proof.
  destruct t as [a|u|c m]; simpl; [reflexivity| |].
  - now rewrite list_fmap_id.
  - f_equal. rewrite <- (list_fmap_id m) at 2. apply list_fmap_ext.
    intros _ r _. apply list_fmap_id.
Qed.

Lemma tbin_pointwise_r (f F : R -> R -> R) (dx dy : tensor) :
  tshape dx = tshape dy -> twf dx -> twf dy ->
  tbin f (tzip F dx dy) dy = Ok (tzip (fun a b => f (F a b) b) dx dy).
Proof.
  intros Hs H1 H2.
  rewrite <- (tmap_id dy) at 2.
  rewrite (tmap_as_tzip_r (fun a => a) dx dy) by assumption.
  now apply tbin_pointwise.
Qed.

(** ** The Gaussian and Moffat densities *)

Lemma quadratic_pointwise (start : option R) (a b c : R) (dx dy : tensor) :
  tshape dx = tshape dy -> twf dx -> twf dy ->
  quadratic (T0 <$> start) (T0 a) (T0 b) (T0 c) dx dy
  = Ok (tzip (quadratic_at start a b c) dx dy).
Proof.
  intros Hs H1 H2. unfold quadratic, tmul, tadd, tsq.
  cbn [tbin tmap mbind result_bind].
  rewrite !tmap_tmap.
  rewrite (tmap_as_tzip_l (fun u => a * u ^ 2) dx dy) by assumption.
  rewrite (tmap_as_tzip_l (Rmult (2 * b)) dx dy) by assumption.
  rewrite (tmap_as_tzip_r (fun v => c * v ^ 2) dx dy) by assumption.
  destruct start as [o|]; cbn [fmap option_fmap option_map tbin mbind result_bind].
  - rewrite tmap_tzip by assumption.
    rewrite tbin_pointwise_r by assumption. cbn [mbind result_bind].
    rewrite tbin_pointwise by assumption. cbn [mbind result_bind].
    rewrite tbin_pointwise by assumption.
    reflexivity.
  - rewrite tbin_pointwise_r by assumption. cbn [mbind result_bind].
    rewrite tbin_pointwise by assumption. cbn [mbind result_bind].
    rewrite tbin_pointwise by assumption.
    reflexivity.
Qed.

(** ** The Gaussian and Moffat densities *)

Lemma tbin_scalar_r (f : R -> R -> R) (t : tensor) (b : R) :
  tbin f t (T0 b) = Ok (tmap (fun a => f a b) t).
Proof. destruct t; reflexivity. Qed.

Lemma Gaussian_psf_pointwise (a b c : R) (dx dy : tensor) (j : nat) :
  tshape dx = tshape dy -> twf dx -> twf dy ->
  Gaussian_psf dx dy (T1 [a; b; c]) j
  = Ok (tzip (fun u v => exp (- (a * u ^ 2 + 2 * b * u * v + c * v ^ 2))) dx dy).
Proof.
  intros Hs H1 H2. unfold Gaussian_psf. simpl titer. cbn [mbind result_bind].
  pose proof (quadratic_pointwise None a b c dx dy Hs H1 H2) as Hq.
  cbn [fmap option_fmap option_map] in Hq. rewrite Hq. cbn [mbind result_bind].
  rewrite tmap_tmap, tmap_tzip by assumption. reflexivity.
Qed.


(** ** [evaluate] and [mean] *)

Lemma evaluate_form (self : model) (flux xs ys : R) (params : tensor) (j : nat)
    (norm : bool) (dx dy p : tensor) :
  offsets self xs ys j = Ok (dx, dy) ->
  psf self dx dy params j = Ok p ->
  evaluate self flux xs ys params j norm
  = Ok (tmap (fun d => flux * d / (if norm then rsum (telems p) else 1)) p).
Proof.
  intros Ho Hp. unfold evaluate. rewrite Ho. cbn [mbind result_bind].
  rewrite Hp. cbn [mbind result_bind]. unfold tmul, tdiv. cbn [tbin mbind result_bind].
  destruct norm; unfold tsum; rewrite tbin_scalar_r, tmap_tmap; reflexivity.
Qed.

Lemma rsum_cons (a : R) (l : list R) : rsum (a :: l) = a + rsum l.
Proof. reflexivity. Qed.

Lemma rsum_nil : rsum [] = 0.
Proof. reflexivity. Qed.

Lemma rsum_app (u v : list R) : rsum (u ++ v) = rsum u + rsum v.
Proof.
  induction u as [|a u IH].
  - rewrite app_nil_l, rsum_nil. lra.
  - rewrite <- app_comm_cons, !rsum_cons, IH. lra.
Qed.

Lemma rsum_scale (k s : R) (l : list R) :
  rsum ((fun d => k * d / s) <$> l) = k * rsum l / s.
Proof.
  induction l as [|a l IH].
  - rewrite fmap_nil, rsum_nil. unfold Rdiv. ring.
  - rewrite fmap_cons, !rsum_cons, IH. unfold Rdiv. ring.
Qed.

Lemma rsum_telems_scale (k s : R) (t : tensor) :
  rsum (telems (tmap (fun d => k * d / s) t)) = k * rsum (telems t) / s.
Proof.
  destruct t as [a|u|c m]; cbn [tmap telems].
  - rewrite !rsum_cons, rsum_nil. unfold Rdiv. ring.
  - apply rsum_scale.
  - induction m as [|r m IH].
    + rewrite fmap_nil. cbn [concat]. rewrite rsum_nil. unfold Rdiv. ring.
    + rewrite fmap_cons. cbn [concat]. rewrite !rsum_app, rsum_scale, IH.
      unfold Rdiv. ring.
Qed.

(** With [norm=True] and unit flux the values of [evaluate] sum to 1,
    provided the raw density has a non-zero sum. *)
Lemma evaluate_normalized (self : model) (xs ys : R) (params : tensor) (j : nat)
    (dx dy p : tensor) :
  offsets self xs ys j = Ok (dx, dy) ->
  psf self dx dy params j = Ok p ->
  rsum (telems p) <> 0 ->
  exists t, evaluate self 1 xs ys params j true = Ok t /\ rsum (telems t) = 1.
Proof.
  intros Ho Hp Hs. eexists. split; [exact (evaluate_form _ 1 _ _ _ _ true _ _ _ Ho Hp)|].
  rewrite rsum_telems_scale. now field.
Qed.


Lemma tbin_shape (f : R -> R -> R) (t1 t2 : tensor) :
  tshape t1 = tshape t2 -> exists t, tbin f t1 t2 = Ok t /\ tshape t = tshape t1.
Proof.
  destruct t1 as [a|u|c1 m1], t2 as [b|v|c2 m2]; simpl; try discriminate.
  - eauto.
  - intros [= Hl]. rewrite Hl, bdim_same. cbn [mbind result_bind].
    eexists. split; [reflexivity|]. simpl.
    rewrite brow_same, length_zip_with by exact Hl. f_equal. lia.
  - intros [= Hl Hc]. subst c2. rewrite bdim_same, Hl, bdim_same.
    cbn [mbind result_bind]. eexists. split; [reflexivity|]. simpl.
    unfold brows. rewrite Hl, Nat.eqb_refl, length_zip_with, Hl. f_equal. lia.
Qed.





(** The Gaussian model returns a cutout-shaped array for every star. *)
Lemma Gaussian_evaluate_shape (b : base) (s1 s2 k : nat) (xck yck flux xs ys : R)
    (a b0 c : R) (norm : bool) :
  base_inv b -> shape b = (s1, s2) ->
  xc b !! k = Some xck -> yc b !! k = Some yck ->
  exists t, evaluate (IGaussian b) flux xs ys (T1 [a; b0; c]) k norm = Ok t
    /\ tshape t = [s1; s2].
Proof.
  intros (Hy & Hx & _) Hs Hxc Hyc. rewrite Hs in Hy, Hx.
  destruct (_init_grid_shape s1 s2 (col_ref b) (row_ref b)) as [Sy Sx].
  destruct (_init_grid_wf s1 s2 (col_ref b) (row_ref b)) as [Wy Wx].
  rewrite <- Hy in Sy, Wy. rewrite <- Hx in Sx, Wx.
  eexists. split.
  - eapply evaluate_form.
    + exact (offsets_Ok (IGaussian b) b xs ys k xck yck eq_refl Hxc Hyc).
    + simpl. apply Gaussian_psf_pointwise;
        rewrite ?tshape_tmap; auto using twf_tmap; congruence.
  - rewrite tshape_tmap, tshape_tzip, tshape_tmap; [assumption|].
    rewrite !tshape_tmap. congruence.
Qed.


(** ** [Moffat] through [evaluate] *)

Lemma unpack4_other {A} (l : list tensor) (F : tensor -> tensor -> tensor -> tensor -> result A) :
  length l <> 4%nat ->
  match l with
  | [a; b; c; beta] => F a b c beta
  | _ => Raise ValueError
  end = Raise ValueError.
Proof.
  destruct l as [|a [|b [|c [|beta [|e l]]]]]; simpl; try reflexivity.
  intros H. now contradiction H.
Qed.

Lemma Moffat_psf_rows (c : nat) (m : list (list R)) (dx dy : tensor) (j : nat) :
  length m <> 4%nat -> Moffat_psf (T2 c m) dx dy j = Raise ValueError.
Proof.
  intros H. unfold Moffat_psf. cbn [titer mbind result_bind].
  apply unpack4_other. now rewrite length_fmap.
Qed.

(** [evaluate] hands the offset grid [dx] to [Moffat.psf] as [params]:
    unless the cutout has exactly four rows the unpacking fails. *)
Lemma Moffat_evaluate_raises (b : base) (s1 s2 k : nat) (xck yck flux xs ys : R)
    (params : tensor) (norm : bool) :
  base_inv b -> shape b = (s1, s2) -> s1 <> 4%nat ->
  xc b !! k = Some xck -> yc b !! k = Some yck ->
  exists dx dy,
    offsets (IMoffat b) xs ys k = Ok (dx, dy)
    /\ psf (IMoffat b) dx dy params k = Raise ValueError
    /\ evaluate (IMoffat b) flux xs ys params k norm = Raise ValueError.
Proof.
  intros (Hy & Hx & _) Hs Hne Hxc Hyc. rewrite Hs in Hy, Hx.
  pose proof (offsets_Ok (IMoffat b) b xs ys k xck yck eq_refl Hxc Hyc) as Ho.
  eexists _, _. split; [exact Ho|].
  assert (Hp : psf (IMoffat b) (tmap (fun v => v - (xck + xs)) (x b))
                 (tmap (fun v => v - (yck + ys)) (y b)) params k = Raise ValueError).
  { rewrite Hx. unfold _init_grid, mgrid2. cbn [snd tmap psf].
    apply Moffat_psf_rows. now rewrite length_fmap, length_replicate. }
  split; [exact Hp|].
  unfold evaluate. rewrite Ho. cbn [mbind result_bind]. now rewrite Hp.
Qed.

(** With four rows the rows of [dx] are taken as [a], [b], [c] and [beta],
    the grid [dy] as [dx] and the optical parameters as [dy]. *)
Lemma Moffat_psf_four_rows (b : base) (c : nat) (r1 r2 r3 r4 : list R)
    (dy params : tensor) (k : nat) :
  psf (IMoffat b) (T2 c [r1; r2; r3; r4]) dy params k
  = (q ← quadratic (Some (T0 1)) (T1 r1) (T1 r2) (T1 r3) dy params;
     p ← tpow q (tsq (T1 r4));
     tdiv (T0 1) p).
Proof. reflexivity. Qed.


(** ** Normalization *)

Lemma rsum_pos (l : list R) :
  l <> [] -> Forall (fun a => 0 < a) l -> 0 < rsum l.
Proof.
  intros Hne H. induction H as [|a l Ha Hl IH]; [congruence|].
  rewrite rsum_cons. destruct l as [|a' l'].
  - rewrite rsum_nil. lra.
  - assert (0 < rsum (a' :: l')) by (apply IH; discriminate). lra.
Qed.

Lemma zip_with_Forall (P : R -> Prop) (F : R -> R -> R) (u v : list R) :
  (forall a b, P (F a b)) -> Forall P (zip_with F u v).
Proof.
  intros H. revert v. induction u as [|a u IH]; intros [|b v]; simpl;
    constructor; auto.
Qed.

Lemma telems_tzip_Forall (P : R -> Prop) (F : R -> R -> R) (dx dy : tensor) :
  tshape dx = tshape dy -> (forall a b, P (F a b)) ->
  Forall P (telems (tzip F dx dy)).
Proof.
  intros Hs H.
  destruct dx as [a|u|c1 m1], dy as [b|v|c2 m2]; simpl in *; try discriminate.
  - repeat constructor. apply H.
  - now apply zip_with_Forall.
  - clear Hs. revert m2. induction m1 as [|r1 m1 IH]; intros [|r2 m2]; simpl;
      try constructor.
    apply Forall_app. split; [now apply zip_with_Forall | apply IH].
Qed.

Lemma telems_nonempty (t : tensor) (s1 s2 : nat) :
  tshape t = [s1; s2] -> twf t -> (1 <= s1)%nat -> (1 <= s2)%nat -> telems t <> [].
Proof.
  destruct t as [a|u|c m]; simpl; try discriminate.
  intros [= Hl Hc] Hwf H1 H2. subst c.
  destruct m as [|r m]; simpl in *; [lia|].
  inversion Hwf as [|? ? Hr _]; subst.
  destruct r as [|a r]; simpl in *; [lia|]. discriminate.
Qed.

(** C5: with unit flux and [norm=True], [evaluate] on the Gaussian model
    returns a density that sums to 1 over a non-empty cutout; on the
    Moffat model the same call raises [ValueError] unless the cutout has
    four rows. *)
Theorem unit_flux_normalization (b : base) (s1 s2 k : nat) (xck yck xs ys : R)
    (a b0 c beta : R) :
  base_inv b -> shape b = (s1, s2) ->
  (1 <= s1)%nat -> (1 <= s2)%nat -> s1 <> 4%nat ->
  xc b !! k = Some xck -> yc b !! k = Some yck ->
  (exists t, evaluate (IGaussian b) 1 xs ys (T1 [a; b0; c]) k true = Ok t
     /\ tshape t = [s1; s2] /\ rsum (telems t) = 1)
  /\ evaluate (IMoffat b) 1 xs ys (T1 [a; b0; c; beta]) k true = Raise ValueError.
Proof.
  intros Hinv Hs Hr Hc Hne Hxc Hyc. split.
  - destruct Hinv as (Hy & Hx & _). rewrite Hs in Hy, Hx.
    destruct (_init_grid_shape s1 s2 (col_ref b) (row_ref b)) as [Sy Sx].
    destruct (_init_grid_wf s1 s2 (col_ref b) (row_ref b)) as [Wy Wx].
    rewrite <- Hy in Sy, Wy. rewrite <- Hx in Sx, Wx.
    pose proof (offsets_Ok (IGaussian b) b xs ys k xck yck eq_refl Hxc Hyc) as Ho.
    set (dx := tmap (fun v => v - (xck + xs)) (x b)) in *.
    set (dy := tmap (fun v => v - (yck + ys)) (y b)) in *.
    assert (Sd : tshape dx = tshape dy) by (unfold dx, dy; rewrite !tshape_tmap; congruence).
    assert (Wdx : twf dx) by (now apply twf_tmap).
    assert (Wdy : twf dy) by (now apply twf_tmap).
    pose proof (Gaussian_psf_pointwise a b0 c dx dy k Sd Wdx Wdy) as Hp.
    set (p := tzip (fun u v => exp (- (a * u ^ 2 + 2 * b0 * u * v + c * v ^ 2))) dx dy) in *.
    assert (Sp : tshape p = [s1; s2]).
    { unfold p. rewrite tshape_tzip by exact Sd. unfold dx. now rewrite tshape_tmap. }
    assert (Hpos : 0 < rsum (telems p)).
    { apply rsum_pos.
      - apply (telems_nonempty p s1 s2 Sp); [now apply twf_tzip|assumption|assumption].
      - apply telems_tzip_Forall; [exact Sd|]. intros u v. apply exp_pos. }
    destruct (evaluate_normalized (IGaussian b) xs ys (T1 [a; b0; c]) k dx dy p Ho Hp)
      as (t & Ht & Hsum); [lra|].
    exists t. split; [exact Ht|]. split; [|exact Hsum].
    rewrite (evaluate_form _ 1 _ _ _ _ true _ _ _ Ho Hp) in Ht.
    injection Ht as <-. now rewrite tshape_tmap.
  - destruct (Moffat_evaluate_raises b s1 s2 k xck yck 1 xs ys
                (T1 [a; b0; c; beta]) true Hinv Hs Hne Hxc Hyc) as (_ & _ & _ & _ & H).
    exact H.
Qed.

(** ** [PRFWrap] *)

Lemma instantiate_PRFWrap (depth : nat) (kw : kwargs) (self : model) :
  instantiate depth CPRFWrap kw = Ok self -> exists submodel, self = IPRFWrap submodel.
Proof.
  destruct depth as [|d]; simpl; [discriminate|].
  destruct (eval_model (kw_model kw)) as [c|]; cbn [mbind result_bind]; [|discriminate].
  destruct (instantiate d c kw) as [sub|]; cbn [mbind result_bind]; [|discriminate].
  intros [= <-]. eauto.
Qed.

Lemma PRFWrap_forwards_default_optpars (submodel : model) :
  get_default_optpars (IPRFWrap submodel) = get_default_optpars submodel.
Proof. reflexivity. Qed.

(** An unbound name, or no name at all, stops the construction. *)
Lemma PRFWrap_unresolved_name (kw : kwargs) (s : string) :
  kw_model kw = Some s -> lookup_name s module_classes = None ->
  PRFWrap_init kw = Raise NameError.
Proof.
  intros Hm Hl. unfold PRFWrap_init, recursion_limit. simpl.
  unfold eval_model. now rewrite Hm, Hl.
Qed.

Lemma PRFWrap_missing_name (kw : kwargs) :
  kw_model kw = None -> PRFWrap_init kw = Raise TypeError.
Proof.
  intros Hm. unfold PRFWrap_init, recursion_limit. simpl.
  unfold eval_model. now rewrite Hm.
Qed.

Lemma PRFWrap_psf_after_submodel (submodel : model) (dx dy params d : tensor) (j : nat) :
  psf submodel dx dy params j = Ok d ->
  psf (IPRFWrap submodel) dx dy params j = Raise AttributeError.
Proof. intros H. simpl. now rewrite H. Qed.

Lemma PRFWrap_psf_never_returns (submodel : model) (dx dy params t : tensor) (j : nat) :
  psf (IPRFWrap submodel) dx dy params j <> Ok t.
Proof. simpl. destruct (psf submodel dx dy params j); discriminate. Qed.

(** C9: a wrapper built by name forwards [get_default_optpars] to the
    wrapped model, but its [psf] never returns the convolved density: the
    wrapper has no attribute [prf] (nor any other base attribute), so the
    call raises [AttributeError] once the wrapped density is computed. *)
Theorem PRFWrap_density (kw : kwargs) (self : model) (dx dy params : tensor) (j : nat) :
  PRFWrap_init kw = Ok self ->
  exists submodel,
    self = IPRFWrap submodel
    /\ get_default_optpars self = get_default_optpars submodel
    /\ attrs self = Raise AttributeError
    /\ (forall d, psf submodel dx dy params j = Ok d ->
          psf self dx dy params j = Raise AttributeError)
    /\ (forall t, psf self dx dy params j <> Ok t).
Proof.
  intros H. destruct (instantiate_PRFWrap _ _ _ H) as (sub & ->).
  exists sub. repeat split.
  - intros d. apply PRFWrap_psf_after_submodel.
  - intros t. apply PRFWrap_psf_never_returns.
Qed.

(** ** The Zernike basis cache *)

Section Cache.
Variables (zz : TorchZern) (mask : list Z) (shape : nat * nat).

Lemma Zernike_mode_Ok (theta : tensor) (j k : nat)
    (cache cache' : gmap nat (gmap nat tensor)) :
  Zernike_mode zz mask shape theta j cache k = Ok cache' ->
  exists mk cj v,
    mask !! k = Some mk /\ cache !! j = Some cj
    /\ cache' = <[j := <[k := v]> cj]> cache
    /\ (truthy mk = false -> v = tzeros shape)
    /\ (truthy mk = true -> angular zz k theta = Ok v).
Proof.
  unfold Zernike_mode, index, getitem.
  destruct (mask !! k) as [mk|]; cbn [mbind result_bind]; [|discriminate].
  destruct (truthy mk) eqn:Ht.
  - destruct (angular zz k theta) as [zr|]; cbn [mbind result_bind]; [|discriminate].
    destruct (cache !! j) as [cj|]; cbn [mbind result_bind]; [|discriminate].
    intros [= <-]. exists mk, cj, zr. repeat split; auto; intros; congruence.
  - destruct (cache !! j) as [cj|]; cbn [mbind result_bind]; [|discriminate].
    intros [= <-]. exists mk, cj, (tzeros shape). repeat split; auto; intros; congruence.
Qed.

Lemma Zernike_modes_Ok (theta : tensor) (j : nat) (ks : list nat) :
  forall cache cache' cj,
    foldM (Zernike_mode zz mask shape theta j) cache ks = Ok cache' ->
    cache !! j = Some cj ->
    exists cj', cache' !! j = Some cj'
      /\ (forall j', j' <> j -> cache' !! j' = cache !! j')
      /\ (forall k, ~ In k ks -> cj' !! k = cj !! k)
      /\ (forall k mk, In k ks -> mask !! k = Some mk ->
            exists v, cj' !! k = Some v
              /\ (truthy mk = false -> v = tzeros shape)
              /\ (truthy mk = true -> angular zz k theta = Ok v)).
Proof.
  induction ks as [|k0 ks IH]; intros cache cache' cj; simpl.
  - intros [= <-] Hj. exists cj. repeat split; auto. intros k mk [].
  - destruct (Zernike_mode zz mask shape theta j cache k0) as [cache1|] eqn:H1;
      cbn [mbind result_bind]; [|discriminate].
    intros Hfold Hj.
    apply Zernike_mode_Ok in H1.
    destruct H1 as (mk0 & cj0 & v0 & Hm0 & Hj0 & -> & Hz0 & Ha0).
    rewrite Hj in Hj0. injection Hj0 as <-.
    destruct (IH _ _ (<[k0 := v0]> cj) Hfold) as (cj' & Hj' & Hoth & Hout & Hin).
    { apply lookup_insert_eq. }
    exists cj'. split; [exact Hj'|]. split; [|split].
    + intros j' Hne. rewrite Hoth by exact Hne. now apply lookup_insert_ne.
    + intros k Hk. rewrite Hout by (intros Hin'; apply Hk; now right).
      apply lookup_insert_ne. intros ->. apply Hk. now left.
    + intros k mk Hk Hmk.
      destruct (in_dec Nat.eq_dec k ks) as [Hin'|Hnin].
      * now apply Hin.
      * destruct Hk as [<-|Hk]; [|contradiction].
        rewrite Hm0 in Hmk. injection Hmk as <-.
        exists v0. split; [|split; assumption].
        rewrite Hout by exact Hnin. apply lookup_insert_eq.
Qed.

Lemma Zernike_star_Ok (b : base) (sx sy : list R) (j : nat)
    (cache cache' : gmap nat (gmap nat tensor))
    (coords coords' : gmap nat (tensor * tensor)) :
  Zernike_star b zz mask shape sx sy (cache, coords) j = Ok (cache', coords') ->
  cache_ok zz mask shape cache' j
  /\ (forall j', j' <> j -> cache' !! j' = cache !! j').
Proof.
  unfold Zernike_star.
  destruct (index sx j) as [xo|]; cbn [mbind result_bind]; [|discriminate].
  destruct (index sy j) as [yo|]; cbn [mbind result_bind]; [|discriminate].
  destruct (get_polar_coords b xo yo) as [rt|]; cbn [mbind result_bind]; [|discriminate].
  destruct (foldM _ (<[j := ∅]> cache) (seq 0 (nk zz))) as [c1|] eqn:Hf;
    cbn [mbind result_bind]; [|discriminate].
  intros [= <- <-].
  destruct (Zernike_modes_Ok _ _ _ _ _ ∅ Hf) as (cj' & Hj' & Hoth & _ & Hin).
  { apply lookup_insert_eq. }
  split.
  - exists cj'. split; [exact Hj'|]. intros k mk Hk Hmk.
    destruct (Hin k mk) as (v & Hv & Hz & Ha); [apply in_seq; lia|exact Hmk|].
    exists v. repeat split; auto. intros Ht. eauto.
  - intros j' Hne. rewrite Hoth by exact Hne. now apply lookup_insert_ne.
Qed.

Lemma cache_ok_same (cache cache' : gmap nat (gmap nat tensor)) (j : nat) :
  cache' !! j = cache !! j -> cache_ok zz mask shape cache j ->
  cache_ok zz mask shape cache' j.
Proof. intros H (cj & Hcj & Hk). exists cj. split; [congruence|exact Hk]. Qed.

Lemma Zernike_stars_Ok (b : base) (sx sy : list R) (js : list nat) :
  forall st st',
    foldM (Zernike_star b zz mask shape sx sy) st js = Ok st' ->
    forall j, In j js \/ cache_ok zz mask shape (fst st) j ->
      cache_ok zz mask shape (fst st') j.
Proof.
  induction js as [|j0 js IH]; intros st st'; simpl.
  - intros [= <-] j [[]|H]. exact H.
  - destruct (Zernike_star b zz mask shape sx sy st j0) as [st1|] eqn:H1;
      cbn [mbind result_bind]; [|discriminate].
    intros Hfold j Hj. destruct st as [cache coords], st1 as [cache1 coords1].
    apply Zernike_star_Ok in H1. destruct H1 as [Hok Hoth].
    apply (IH _ _ Hfold).
    destruct (Nat.eq_dec j j0) as [->|Hne]; [now right|].
    destruct Hj as [[Heq|Hin]|Hc]; [congruence|now left|right].
    apply (cache_ok_same cache); [now apply Hoth|exact Hc].
Qed.

End Cache.

Lemma Zernike_tables_Ok (b : base) (zz : TorchZern) (zp : list R) (cutoff : R)
    (sh : nat * nat) (sx sy : list R) (zn : zern) :
  Zernike_tables b zz zp cutoff sh sx sy = Ok zn ->
  z zn = zz /\ zpars zn = zp /\ mode_mask zn = make_mode_mask zp cutoff
  /\ forall j, (j < nstars b)%nat -> cache_ok zz (mode_mask zn) sh (cache zn) j.
Proof.
  unfold Zernike_tables.
  destruct (foldM _ (∅, ∅) (seq 0 (nstars b))) as [st|] eqn:Hf;
    cbn [mbind result_bind]; [|discriminate].
  intros [= <-]. cbn. repeat split.
  intros j Hj. apply (Zernike_stars_Ok _ _ _ _ _ _ _ _ _ Hf).
  left. apply in_seq. lia.
Qed.

(** ** [Zernike.__init__] returns *)

Lemma get_polar_coords_total (b : base) (xo yo : R) :
  tshape (x b) = tshape (y b) -> exists rt, get_polar_coords b xo yo = Ok rt.
Proof.
  intros Hs. unfold get_polar_coords, tsub. rewrite !tbin_scalar_r.
  cbn [mbind result_bind].
  destruct (tbin_shape Rplus (tsq (tmap (fun a => a - xo) (x b)))
              (tsq (tmap (fun a => a - yo) (y b)))) as (s & Hsum & _).
  { unfold tsq. rewrite !tshape_tmap. exact Hs. }
  unfold tadd. rewrite Hsum. cbn [mbind result_bind].
  destruct (tbin_shape (fun v u => atan2 v u) (tmap (fun a => a - yo) (y b))
              (tmap (fun a => a - xo) (x b))) as (th & Hth & _).
  { rewrite !tshape_tmap. congruence. }
  rewrite Hth. cbn [mbind result_bind]. eauto.
Qed.

Section CacheTotal.
Variables (zz : TorchZern) (mask : list Z) (shape : nat * nat).

(** Every mode index of the basis has a mask entry and a table entry. *)
Hypothesis mask_covers : forall k, (k < nk zz)%nat -> is_Some (mask !! k).
Hypothesis mtab_covers : forall k, (k < nk zz)%nat -> is_Some (mtab zz !! k).

Lemma Zernike_mode_total (theta : tensor) (j k : nat)
    (cache : gmap nat (gmap nat tensor)) :
  (k < nk zz)%nat -> is_Some (cache !! j) ->
  exists cache', Zernike_mode zz mask shape theta j cache k = Ok cache'
    /\ is_Some (cache' !! j).
Proof.
  intros Hk [cj Hcj].
  destruct (mask_covers k Hk) as [mk Hmk]. destruct (mtab_covers k Hk) as [m Hm].
  unfold Zernike_mode, angular, index, getitem. rewrite Hmk, Hm, Hcj.
  cbn [mbind result_bind].
  destruct (truthy mk); [destruct (0 <=? m)%Z|]; cbn [mbind result_bind];
    eexists; (split; [reflexivity|]); rewrite lookup_insert_eq; eauto.
Qed.

Lemma Zernike_modes_total (theta : tensor) (j : nat) (ks : list nat) :
  (forall k, In k ks -> (k < nk zz)%nat) ->
  forall cache, is_Some (cache !! j) ->
  exists cache', foldM (Zernike_mode zz mask shape theta j) cache ks = Ok cache'.
Proof.
  induction ks as [|k0 ks IH]; intros Hks cache Hj; simpl; [eauto|].
  destruct (Zernike_mode_total theta j k0 cache) as (c1 & H1 & Hj1);
    [apply Hks; now left|exact Hj|].
  rewrite H1. cbn [mbind result_bind].
  apply IH; [|exact Hj1]. intros k Hin. apply Hks. now right.
Qed.

Lemma Zernike_star_total (b : base) (sx sy : list R) (j : nat)
    (st : gmap nat (gmap nat tensor) * gmap nat (tensor * tensor)) :
  tshape (x b) = tshape (y b) -> is_Some (sx !! j) -> is_Some (sy !! j) ->
  exists st', Zernike_star b zz mask shape sx sy st j = Ok st'.
Proof.
  intros Hs [xo Hxo] [yo Hyo]. destruct st as [cache coords]. unfold Zernike_star.
  rewrite (index_Some _ _ _ Hxo), (index_Some _ _ _ Hyo). cbn [mbind result_bind].
  destruct (get_polar_coords_total b xo yo Hs) as (rt & Hrt).
  rewrite Hrt. cbn [mbind result_bind].
  destruct (Zernike_modes_total (snd rt) j (seq 0 (nk zz))) with (cache := <[j := ∅]> cache)
    as (c1 & Hc1).
  { intros k Hin. apply in_seq in Hin. lia. }
  { rewrite lookup_insert_eq. eauto. }
  rewrite Hc1. cbn [mbind result_bind]. eauto.
Qed.

Lemma Zernike_stars_total (b : base) (sx sy : list R) (js : list nat) :
  tshape (x b) = tshape (y b) ->
  (forall j, In j js -> is_Some (sx !! j) /\ is_Some (sy !! j)) ->
  forall st, exists st', foldM (Zernike_star b zz mask shape sx sy) st js = Ok st'.
Proof.
  intros Hs. induction js as [|j0 js IH]; intros Hjs st; simpl; [eauto|].
  destruct (Hjs j0) as [Hxo Hyo]; [now left|].
  destruct (Zernike_star_total b sx sy j0 st Hs Hxo Hyo) as (st1 & H1).
  rewrite H1. cbn [mbind result_bind].
  apply IH. intros j Hin. apply Hjs. now right.
Qed.

End CacheTotal.

Lemma make_mode_mask_length (zp : list R) (cutoff : R) :
  length (make_mode_mask zp cutoff) = length zp.
Proof. unfold make_mode_mask. apply length_fmap. Qed.

Lemma Zernike_init_total (sh : nat * nat) (cr rr : R) (sx sy : list R) (bk : R)
    (ls : Loss) (src : Source) (zern_n : nat) (p : tensor) :
  make_prf_from_source src = Ok p ->
  (forall p0, exists r, tnc_minimize p zern_n p0 = Ok r) ->
  (Zern_nk zern_n <= 15)%nat ->
  (Zern_nk zern_n <= length (Zern_mtab zern_n))%nat ->
  (length sx <= length sy)%nat ->
  exists b zn, Zernike_init sh cr rr sx sy bk ls src zern_n = Ok (IZernike b zn).
Proof.
  intros Hp Hfit Hnk Hmt Hxy.
  destruct (Model_init_total sh cr rr sx sy bk ls src p Hp) as (b & Hb).
  unfold Zernike_init. rewrite Hb. cbn [mbind result_bind].
  apply Model_init_Ok in Hb.
  destruct Hb as (Hs & _ & _ & Hx & _ & _ & Hgy & Hgx & _ & Hprf).
  rewrite Hp in Hprf. injection Hprf as <-.
  destruct (Hfit ([1; 0; 0; 1e-3; 0] ++ replicate (nk (TorchZern_new zern_n)) 0))
    as (r & Hr).
  rewrite Hr. cbn [mbind result_bind].
  unfold Zernike_tables.
  destruct (Zernike_stars_total (TorchZern_new zern_n)
              (make_mode_mask zpars_literal 0) sh) with
      (b := b) (sx := sx) (sy := sy) (js := seq 0 (nstars b))
      (st := (∅ : gmap nat (gmap nat tensor), ∅ : gmap nat (tensor * tensor)))
    as (st & Hst).
  - intros k Hk. apply lookup_lt_is_Some. rewrite make_mode_mask_length.
    simpl in *. lia.
  - intros k Hk. apply lookup_lt_is_Some. simpl in *. lia.
  - rewrite Hgx, Hgy. destruct sh as [s1 s2].
    destruct (_init_grid_shape s1 s2 cr rr) as [Sy Sx]. congruence.
  - intros j Hin. apply in_seq in Hin. unfold nstars in Hin. rewrite Hx in Hin.
    split; apply lookup_lt_is_Some; lia.
  - rewrite Hst. cbn [mbind result_bind]. eauto.
Qed.

Lemma Zernike_tables_total (b : base) (zz : TorchZern) (zp : list R) (cutoff : R)
    (sh : nat * nat) (sx sy : list R) :
  tshape (x b) = tshape (y b) ->
  (nk zz <= length zp)%nat -> (nk zz <= length (mtab zz))%nat ->
  (nstars b <= length sx)%nat -> (nstars b <= length sy)%nat ->
  exists zn, Zernike_tables b zz zp cutoff sh sx sy = Ok zn.
Proof.
  intros Hs Hzp Hmt Hsx Hsy. unfold Zernike_tables.
  destruct (Zernike_stars_total zz (make_mode_mask zp cutoff) sh) with
      (b := b) (sx := sx) (sy := sy) (js := seq 0 (nstars b))
      (st := (∅ : gmap nat (gmap nat tensor), ∅ : gmap nat (tensor * tensor)))
    as (st & Hst).
  - intros k Hk. apply lookup_lt_is_Some. rewrite make_mode_mask_length. lia.
  - intros k Hk. apply lookup_lt_is_Some. lia.
  - exact Hs.
  - intros j Hin. apply in_seq in Hin. split; apply lookup_lt_is_Some; lia.
  - rewrite Hst. cbn [mbind result_bind]. eauto.
Qed.

Lemma Zernike_init_Ok (sh : nat * nat) (cr rr : R) (sx sy : list R) (bk : R)
    (ls : Loss) (src : Source) (zern_n : nat) (self : model) :
  Zernike_init sh cr rr sx sy bk ls src zern_n = Ok self ->
  exists b zn res_x,
    self = IZernike b zn
    /\ Model_init sh cr rr sx sy bk ls src = Ok b
    /\ tnc_minimize (prf b) zern_n
         ([1; 0; 0; 1e-3; 0] ++ replicate (nk (TorchZern_new zern_n)) 0) = Ok res_x
    /\ Zernike_tables b (TorchZern_new zern_n) zpars_literal 0 sh sx sy = Ok zn.
Proof.
  unfold Zernike_init.
  destruct (Model_init sh cr rr sx sy bk ls src) as [b|]; cbn [mbind result_bind];
    [|discriminate].
  destruct (tnc_minimize _ _ _) as [r|] eqn:Hr; cbn [mbind result_bind]; [|discriminate].
  destruct (Zernike_tables _ _ _ _ _ _ _) as [zn|] eqn:Hz; cbn [mbind result_bind];
    [|discriminate].
  intros [= <-]. exists b, zn, r. auto.
Qed.

Lemma truthy_true (m : Z) : truthy m = true <-> m <> 0%Z.
Proof. unfold truthy. destruct (Z.eqb_spec m 0); simpl; split; congruence. Qed.

(** With the hard-coded coefficients and the cutoff 0 every mode is
    enabled. *)
Lemma mode_mask_entry (v : R) :
  v <> 0 -> (if Rlt_dec 0 (Rabs v) then 1%Z else 0%Z) = 1%Z.
Proof.
  intros Hv. destruct (Rlt_dec 0 (Rabs v)) as [_|Hn]; [reflexivity|].
  exfalso. apply Hn. now apply Rabs_pos_lt.
Qed.

Lemma literal_mode_mask : make_mode_mask zpars_literal 0 = replicate 15 1%Z.
Proof.
  unfold make_mode_mask, zpars_literal. cbn [fmap list_fmap replicate].
  rewrite !mode_mask_entry by lra. reflexivity.
Qed.

Lemma Zernike_init_mode_mask (sh : nat * nat) (cr rr : R) (sx sy : list R) (bk : R)
    (ls : Loss) (src : Source) (zern_n : nat) (b : base) (zn : zern) :
  Zernike_init sh cr rr sx sy bk ls src zern_n = Ok (IZernike b zn) ->
  mode_mask zn = replicate 15 1%Z.
Proof.
  intros H. apply Zernike_init_Ok in H.
  destruct H as (b' & zn' & r & [= <- <-] & _ & _ & Hz).
  apply Zernike_tables_Ok in Hz. destruct Hz as (_ & _ & Hm & _).
  rewrite Hm. apply literal_mode_mask.
Qed.

(** ** Masked modes do not enter the Zernike density *)

Lemma Zernike_term_masked (zn : zern) (p p' : list R) (j i : nat) (acc : tensor) :
  length p = length p' -> (i < length p)%nat ->
  (forall m, mode_mask zn !! i = Some m -> m <> 0%Z -> p !! i = p' !! i) ->
  Zernike_term zn (T1 p) j acc i = Zernike_term zn (T1 p') j acc i.
Proof.
  intros Hl Hi Hagree. unfold Zernike_term, index.
  destruct (mode_mask zn !! i) as [m|]; cbn [mbind result_bind]; [|reflexivity].
  destruct (lookup_lt_is_Some_2 p i Hi) as [a Ha].
  destruct (lookup_lt_is_Some_2 p' i) as [a' Ha']; [lia|].
  cbn [tindex]. unfold index. rewrite Ha, Ha'. cbn [fmap result_fmap mbind result_bind].
  destruct (truthy m) eqn:Ht; [|reflexivity].
  assert (a = a') as <-; [|reflexivity].
  apply truthy_true in Ht. specialize (Hagree m eq_refl Ht). congruence.
Qed.

Lemma Zernike_psf_masked (b : base) (zn : zern) (dx dy : tensor) (p p' : list R)
    (j : nat) :
  length p = length p' -> take 2 p = take 2 p' ->
  (forall i m, mode_mask zn !! i = Some m -> m <> 0%Z ->
     p !! (2 + i)%nat = p' !! (2 + i)%nat) ->
  Zernike_psf b zn dx dy (T1 p) j = Zernike_psf b zn dx dy (T1 p') j.
Proof.
  intros Hl Ht Hagree. unfold Zernike_psf. cbn [ttake tdrop mbind result_bind tlen].
  rewrite Ht. destruct (titer (T1 (take 2 p'))) as [l|]; cbn [mbind result_bind];
    [|reflexivity].
  destruct l as [|a [|c [|]]]; try reflexivity.
  rewrite !length_drop, <- Hl.
  rewrite (foldM_ext_in (Zernike_term zn (T1 (drop 2 p)) j)
             (Zernike_term zn (T1 (drop 2 p')) j)); [reflexivity|].
  intros acc i Hin. apply in_seq in Hin. apply Zernike_term_masked.
  - rewrite !length_drop. lia.
  - rewrite length_drop. lia.
  - intros m Hm Hne. rewrite !lookup_drop. now apply (Hagree i m).
Qed.

Lemma tzeros_shape (sh : nat * nat) : tshape (tzeros sh) = [fst sh; snd sh].
Proof. unfold tzeros. simpl. now rewrite length_replicate. Qed.

(** C6: after the loops of [Zernike.__init__], for every star [j] and
    every mode [k] whose mask entry is 0 the cached image [cache[j][k]] is
    the all-zero array of the cutout shape; and two optical parameter
    vectors that differ only in coefficients whose mask entry is 0 give
    the same [mean]. *)
Theorem mode_mask_invariant (b : base) (zz : TorchZern) (zp : list R) (cutoff : R)
    (sh : nat * nat) (sx sy : list R) (zn : zern) (j k : nat)
    (flux : list R) (xs ys bkg : R) (p p' : list R) (norm : bool) :
  Zernike_tables b zz zp cutoff sh sx sy = Ok zn ->
  (j < nstars b)%nat -> (k < nk zz)%nat -> mode_mask zn !! k = Some 0%Z ->
  length p = length p' -> take 2 p = take 2 p' ->
  (forall i m, mode_mask zn !! i = Some m -> m <> 0%Z ->
     p !! (2 + i)%nat = p' !! (2 + i)%nat) ->
  (exists cj, cache zn !! j = Some cj /\ cj !! k = Some (tzeros sh))
  /\ tshape (tzeros sh) = [fst sh; snd sh]
  /\ mean (IZernike b zn) flux xs ys bkg (T1 p) norm
     = mean (IZernike b zn) flux xs ys bkg (T1 p') norm.
Proof.
  intros Hz Hj Hk Hmask Hl Ht Hagree. split; [|split].
  - destruct (Zernike_tables_Ok _ _ _ _ _ _ _ _ Hz) as (_ & _ & _ & Hc).
    destruct (Hc j Hj) as (cj & Hcj & Hmodes).
    destruct (Hmodes k 0%Z Hk Hmask) as (v & Hv & Hzero & _).
    exists cj. split; [exact Hcj|]. rewrite Hv. f_equal. now apply Hzero.
  - apply tzeros_shape.
  - unfold mean. destruct (nstars <$> attrs (IZernike b zn)) as [n|];
      cbn [mbind result_bind]; [|reflexivity].
    rewrite (mapM_ext_in
               (fun i => fj ← index flux i;
                         evaluate (IZernike b zn) fj xs ys (T1 p) i norm)
               (fun i => fj ← index flux i;
                         evaluate (IZernike b zn) fj xs ys (T1 p') i norm));
      [reflexivity|].
    intros i _. destruct (index flux i) as [fj|]; cbn [mbind result_bind];
      [|reflexivity].
    unfold evaluate. destruct (offsets (IZernike b zn) xs ys i) as [[dx dy]|];
      cbn [mbind result_bind]; [|reflexivity].
    cbn [psf]. now rewrite (Zernike_psf_masked b zn dx dy p p' i Hl Ht Hagree).
Qed.

(** ** Lengths of the bounds table and of the default parameter vector *)

Lemma get_default_par_length (self : model) (b : base) (d0 : tensor) (mx : R)
    (o : list R) :
  attrs self = Ok b -> tmax d0 = Ok mx -> get_default_optpars self = Ok o ->
  exists v, get_default_par self d0 = Ok v
    /\ length v = (nstars b + 3 + length o)%nat.
Proof.
  intros Ha Hm Ho. unfold get_default_par. rewrite Hm, Ha, Ho.
  cbn [fmap result_fmap mbind result_bind]. eexists. split; [reflexivity|].
  rewrite !length_app, length_fmap, length_replicate. simpl. lia.
Qed.

Lemma get_default_par_no_optpars (self : model) (b : base) (d0 : tensor) (mx : R)
    (e : error) :
  attrs self = Ok b -> tmax d0 = Ok mx -> get_default_optpars self = Raise e ->
  get_default_par self d0 = Raise e.
Proof.
  intros Ha Hm Ho. unfold get_default_par. rewrite Hm, Ha, Ho. reflexivity.
Qed.

(** C1: the bounds table and the default parameter vector have the same
    length, and the table is the flux rows, the shared rows and the rows
    of the shape model in that order, for the Gaussian and Moffat models
    only.  The Zernike model has the [N + 3] base rows for [N + 20]
    parameters, the Airy model has the base rows and no default optical
    parameters, and the convolution wrapper has no bounds table. *)
Theorem bounds_and_default_lengths (sh : nat * nat) (cr rr : R) (sx sy : list R)
    (bk : R) (ls : Loss) (src : Source) (zern_n : nat) (d0 : tensor) (mx : R) :
  tmax d0 = Ok mx ->
  (forall self, Gaussian_init sh cr rr sx sy bk ls src = Ok self ->
     exists v, get_bounds self = Ok (base_bounds (length sx) ++ Gaussian_bounds)
       /\ get_default_par self d0 = Ok v
       /\ length (base_bounds (length sx) ++ Gaussian_bounds) = (length sx + 6)%nat
       /\ length v = (length sx + 6)%nat)
  /\ (forall self, Moffat_init sh cr rr sx sy bk ls src = Ok self ->
        exists v, get_bounds self = Ok (base_bounds (length sx) ++ Moffat_bounds)
          /\ get_default_par self d0 = Ok v
          /\ length (base_bounds (length sx) ++ Moffat_bounds) = (length sx + 7)%nat
          /\ length v = (length sx + 7)%nat)
  /\ (forall self, Zernike_init sh cr rr sx sy bk ls src zern_n = Ok self ->
        exists v, get_bounds self = Ok (base_bounds (length sx))
          /\ get_default_par self d0 = Ok v
          /\ length (base_bounds (length sx)) = (length sx + 3)%nat
          /\ length v = (length sx + 20)%nat)
  /\ (forall self, Airy_init sh cr rr sx sy bk ls src = Ok self ->
        get_bounds self = Ok (base_bounds (length sx))
        /\ get_default_par self d0 = Raise AttributeError)
  /\ (forall kw self, PRFWrap_init kw = Ok self ->
        get_bounds self = Raise AttributeError
        /\ get_default_par self d0 = Raise AttributeError).
Proof.
  intros Hm. split; [|split; [|split; [|split]]].
  - intros self. unfold Gaussian_init.
    destruct (Model_init sh cr rr sx sy bk ls src) as [b|] eqn:Hb;
      cbn [mbind result_bind]; [|discriminate].
    intros [= <-]. apply Model_init_Ok in Hb.
    destruct Hb as (_ & _ & _ & Hx & _ & _ & _ & _ & Hbs & _).
    destruct (get_default_par_length
                (IGaussian (with_bounds b (bounds b ++ Gaussian_bounds))) _ d0 mx
                Gaussian_get_default_optpars eq_refl Hm eq_refl) as (v & Hv & Hl).
    exists v. unfold get_bounds. cbn. rewrite Hbs. split; [reflexivity|].
    split; [exact Hv|]. rewrite length_app, base_bounds_length.
    unfold nstars in Hl. cbn in Hl. rewrite Hx in Hl. simpl. split; lia.
  - intros self. unfold Moffat_init.
    destruct (Model_init sh cr rr sx sy bk ls src) as [b|] eqn:Hb;
      cbn [mbind result_bind]; [|discriminate].
    intros [= <-]. apply Model_init_Ok in Hb.
    destruct Hb as (_ & _ & _ & Hx & _ & _ & _ & _ & Hbs & _).
    destruct (get_default_par_length
                (IMoffat (with_bounds b (bounds b ++ Moffat_bounds))) _ d0 mx
                Moffat_get_default_optpars eq_refl Hm eq_refl) as (v & Hv & Hl).
    exists v. unfold get_bounds. cbn. rewrite Hbs. split; [reflexivity|].
    split; [exact Hv|]. rewrite length_app, base_bounds_length.
    unfold nstars in Hl. cbn in Hl. rewrite Hx in Hl. simpl. split; lia.
  - intros self Hz. apply Zernike_init_Ok in Hz.
    destruct Hz as (b & zn & r & -> & Hb & _ & Hz).
    apply Model_init_Ok in Hb.
    destruct Hb as (_ & _ & _ & Hx & _ & _ & _ & _ & Hbs & _).
    apply Zernike_tables_Ok in Hz. destruct Hz as (_ & Hzp & _).
    destruct (get_default_par_length (IZernike b zn) b d0 mx
                (Zernike_get_default_optpars zn) eq_refl Hm eq_refl) as (v & Hv & Hl).
    exists v. unfold get_bounds. cbn. rewrite Hbs. split; [reflexivity|].
    split; [exact Hv|]. rewrite base_bounds_length. split; [lia|].
    unfold Zernike_get_default_optpars in Hl. rewrite Hzp in Hl.
    unfold nstars in Hl. rewrite Hx in Hl. simpl in Hl. lia.
  - intros self. unfold Airy_init.
    destruct (Model_init sh cr rr sx sy bk ls src) as [b|] eqn:Hb;
      cbn [mbind result_bind]; [|discriminate].
    intros [= <-]. apply Model_init_Ok in Hb.
    destruct Hb as (_ & _ & _ & _ & _ & _ & _ & _ & Hbs & _).
    unfold get_bounds. cbn. rewrite Hbs. split; [reflexivity|].
    now apply (get_default_par_no_optpars (IAiry b) b d0 mx).
  - intros kw self H. apply instantiate_PRFWrap in H. destruct H as (sub & ->).
    split; [reflexivity|]. unfold get_default_par. rewrite Hm. reflexivity.
Qed.

(** * Further properties of the models *)

(** ** [evaluate] and the flux *)

Lemma evaluate_Ok_inv (self : model) (flux xs ys : R) (params : tensor) (j : nat)
    (norm : bool) (t : tensor) :
  evaluate self flux xs ys params j norm = Ok t ->
  exists dx dy p, offsets self xs ys j = Ok (dx, dy) /\ psf self dx dy params j = Ok p.
Proof.
  unfold evaluate.
  destruct (offsets self xs ys j) as [[dx dy]|] eqn:Ho; cbn [mbind result_bind];
    [|discriminate].
  destruct (psf self dx dy params j) as [p|] eqn:Hp; cbn [mbind result_bind];
    [|discriminate].
  intros _. exists dx, dy, p. split; [reflexivity|exact Hp].
Qed.

(** X1: the value of [evaluate] is proportional to the flux: whenever the
    call with unit flux returns [t], the call with flux [f] returns [f * t]
    elementwise, with or without normalisation. *)
Theorem evaluate_linear_in_flux (self : model) (flux xs ys : R) (params : tensor)
    (j : nat) (norm : bool) (t : tensor) :
  evaluate self 1 xs ys params j norm = Ok t ->
  evaluate self flux xs ys params j norm = Ok (tmap (Rmult flux) t).
Proof.
  intros H. destruct (evaluate_Ok_inv _ _ _ _ _ _ _ _ H) as (dx & dy & p & Ho & Hp).
  rewrite (evaluate_form _ 1 _ _ _ _ norm _ _ _ Ho Hp) in H. injection H as <-.
  rewrite (evaluate_form _ flux _ _ _ _ norm _ _ _ Ho Hp), tmap_tmap.
  f_equal. apply tmap_ext. intros d. unfold Rdiv. ring.
Qed.

(** ** The number of optical parameters *)

Lemma unpack3_other {A} (l : list tensor) (F : tensor -> tensor -> tensor -> result A) :
  length l <> 3%nat ->
  match l with
  | [a; b; c] => F a b c
  | _ => Raise ValueError
  end = Raise ValueError.
Proof.
  destruct l as [|a [|b [|c [|d l]]]]; simpl; try reflexivity.
  intros H. now contradiction H.
Qed.

(** X2: the shape models unpack their optical parameters and raise
    [ValueError] on a vector of the wrong length: the Gaussian model takes
    exactly three, the Moffat model (called in the order of its signature)
    exactly four, and the Zernike model at least two. *)
Theorem optical_parameter_count (b : base) (zn : zern) (dx dy : tensor) (l : list R)
    (j : nat) :
  (length l <> 3%nat -> Gaussian_psf dx dy (T1 l) j = Raise ValueError)
  /\ (length l <> 4%nat -> Moffat_psf (T1 l) dx dy j = Raise ValueError)
  /\ ((length l < 2)%nat -> Zernike_psf b zn dx dy (T1 l) j = Raise ValueError).
Proof.
  split; [|split].
  - intros H. unfold Gaussian_psf. cbn [titer mbind result_bind].
    apply unpack3_other. now rewrite length_fmap.
  - intros H. unfold Moffat_psf. cbn [titer mbind result_bind].
    apply unpack4_other. now rewrite length_fmap.
  - intros H. unfold Zernike_psf. cbn [ttake tdrop titer mbind result_bind].
    destruct l as [|a [|c l]]; simpl in *; try reflexivity. lia.
Qed.

(** ** The Moffat exponent *)

(** X3: [Moffat.psf] uses [beta] through [beta ** 2] only: the densities
    for [beta] and [- beta] are the same, for all offsets. *)
Theorem Moffat_beta_sign (a b c beta : R) (dx dy : tensor) (j : nat) :
  Moffat_psf (T1 [a; b; c; - beta]) dx dy j = Moffat_psf (T1 [a; b; c; beta]) dx dy j.
Proof.
  unfold Moffat_psf. cbn [titer fmap list_fmap mbind result_bind].
  unfold tsq. cbn [tmap].
  replace ((- beta) ^ 2) with (beta ^ 2) by ring. reflexivity.
Qed.

(** ** The Gaussian density *)

Lemma zip_with_fmap_args (F : R -> R -> R) (f g : R -> R) (u v : list R) :
  zip_with F (f <$> u) (g <$> v) = zip_with (fun a b => F (f a) (g b)) u v.
Proof.
  revert v. induction u as [|a u IH]; intros [|b v]; simpl; try reflexivity.
  f_equal. apply IH.
Qed.

Lemma tzip_tmap_args (F : R -> R -> R) (f g : R -> R) (dx dy : tensor) :
  tshape dx = tshape dy ->
  tzip F (tmap f dx) (tmap g dy) = tzip (fun u v => F (f u) (g v)) dx dy.
Proof.
  destruct dx as [a|u|c1 m1], dy as [b|v|c2 m2]; simpl; try discriminate;
    try reflexivity; intros _.
  - now rewrite zip_with_fmap_args.
  - f_equal. revert m2. induction m1 as [|r1 m1 IH]; intros [|r2 m2]; simpl;
      try reflexivity.
    rewrite zip_with_fmap_args. f_equal. apply IH.
Qed.

(** X4: the Gaussian density is symmetric under the point reflection
    [(dx, dy) -> (-dx, -dy)]. *)
Theorem Gaussian_point_symmetry (a b c : R) (dx dy : tensor) (j : nat) :
  tshape dx = tshape dy -> twf dx -> twf dy ->
  Gaussian_psf (tmap Ropp dx) (tmap Ropp dy) (T1 [a; b; c]) j
  = Gaussian_psf dx dy (T1 [a; b; c]) j.
Proof.
  intros Hs H1 H2.
  rewrite (Gaussian_psf_pointwise a b c dx dy j Hs H1 H2).
  rewrite Gaussian_psf_pointwise
    by (rewrite ?tshape_tmap; auto using twf_tmap).
  rewrite tzip_tmap_args by exact Hs.
  f_equal. apply tzip_ext. intros u v. f_equal. ring.
Qed.

Lemma quadratic_form_nonneg (a b c u v : R) :
  0 <= a -> 0 <= c -> b * b <= a * c ->
  0 <= a * u ^ 2 + 2 * b * u * v + c * v ^ 2.
Proof.
  intros Ha Hc Hd.
  destruct (Req_dec a 0) as [->|Hne].
  - assert (b = 0) as -> by nra. nra.
  - assert (0 < a) by lra.
    assert (0 <= a * (a * u ^ 2 + 2 * b * u * v + c * v ^ 2)).
    { replace (a * (a * u ^ 2 + 2 * b * u * v + c * v ^ 2))
        with ((a * u + b * v) ^ 2 + (a * c - b * b) * v ^ 2) by ring.
      assert (0 <= (a * u + b * v) ^ 2) by apply pow2_ge_0.
      assert (0 <= v ^ 2) by apply pow2_ge_0.
      nra. }
    nra.
Qed.

Lemma exp_neg_le_1 (q : R) : 0 <= q -> exp (- q) <= 1.
Proof.
  intros Hq. rewrite <- exp_0. destruct (Req_dec q 0) as [->|Hne].
  - rewrite Ropp_0. lra.
  - left. apply exp_increasing. lra.
Qed.

(** X5: every value of the Gaussian density is strictly positive, and
    when [[a, b], [b, c]] is positive semidefinite every value is at
    most 1. *)
Theorem Gaussian_density_range (a b c : R) (dx dy : tensor) (j : nat) :
  tshape dx = tshape dy -> twf dx -> twf dy ->
  exists p, Gaussian_psf dx dy (T1 [a; b; c]) j = Ok p
    /\ tshape p = tshape dx
    /\ Forall (fun v => 0 < v) (telems p)
    /\ (0 <= a -> 0 <= c -> b * b <= a * c -> Forall (fun v => v <= 1) (telems p)).
Proof.
  intros Hs H1 H2. eexists. split; [now apply Gaussian_psf_pointwise|].
  split; [now apply tshape_tzip|]. split.
  - apply telems_tzip_Forall; [exact Hs|]. intros u v. apply exp_pos.
  - intros Ha Hc Hd. apply telems_tzip_Forall; [exact Hs|]. intros u v.
    apply exp_neg_le_1. now apply quadratic_form_nonneg.
Qed.

(** ** The Airy density *)

Lemma Airy_psf_not_Ok (dx dy params t : tensor) (j : nat) :
  Airy_psf dx dy params j <> Ok t.
Proof.
  unfold Airy_psf, modified_bessel.
  destruct (tadd (tsq dx) (tsq dy)) as [s|]; cbn [mbind result_bind]; [|discriminate].
  destruct (tmul (T0 PI) (tmap sqrt s)) as [pr|]; cbn [mbind result_bind];
    [|discriminate].
  destruct (tdiv pr params) as [ba|]; cbn [mbind result_bind]; [|discriminate].
  rewrite apply_fn_scalar_input. discriminate.
Qed.

(** X6: [Airy.psf] never returns a density.  It hands the torch tensor
    [pi * r / Rn] to the Bessel primitive as the order and the 0-d tensor 1
    as the input, which the primitive refuses: for offsets of one shape and
    a 0-d [Rn] the call raises [TypeError], and [evaluate] on an Airy model
    returns for no input.  (Gradient tracking is not modelled.) *)
Theorem Airy_psf_raises (dx dy params : tensor) (j : nat) :
  (forall t, Airy_psf dx dy params j <> Ok t)
  /\ (tshape dx = tshape dy -> twf dx -> twf dy ->
      forall rn, Airy_psf dx dy (T0 rn) j = Raise TypeError)
  /\ (forall b flux xs ys norm t,
        evaluate (IAiry b) flux xs ys params j norm <> Ok t).
Proof.
  split; [|split].
  - intros t. apply Airy_psf_not_Ok.
  - intros Hs H1 H2 rn. unfold Airy_psf, modified_bessel, tadd, tmul, tdiv, tsq.
    rewrite (tbin_same Rplus)
      by (rewrite ?tshape_tmap; auto using twf_tmap).
    cbn [mbind result_bind tbin]. rewrite tbin_scalar_r. cbn [mbind result_bind].
    now rewrite apply_fn_scalar_input.
  - intros b flux xs ys norm t. unfold evaluate.
    destruct (offsets (IAiry b) xs ys j) as [[ox oy]|]; cbn [mbind result_bind psf];
      [|discriminate].
    destruct (Airy_psf ox oy params j) as [p|] eqn:Hp; cbn [mbind result_bind];
      [|discriminate].
    now apply Airy_psf_not_Ok in Hp.
Qed.

(** ** The default parameter vector *)

Lemma foldl_Rmax_spec (l : list R) :
  forall a, In (foldl Rmax a l) (a :: l) /\ Forall (fun v => v <= foldl Rmax a l) (a :: l).
Proof.
  induction l as [|b l IH]; intros a; simpl.
  - split; [now left|]. constructor; [lra|constructor].
  - destruct (IH (Rmax a b)) as [Hin Hall].
    inversion Hall as [|? ? Hab Hl]; subst. split.
    + destruct Hin as [Heq|Hin]; [|now right; right].
      rewrite <- Heq. unfold Rmax. destruct (Rle_dec a b); [right; now left|now left].
    + pose proof (Rmax_l a b). pose proof (Rmax_r a b).
      constructor; [lra|]. constructor; [lra|exact Hl].
Qed.

Lemma tmax_spec (d0 : tensor) :
  telems d0 <> [] ->
  exists mx, tmax d0 = Ok mx /\ In mx (telems d0)
    /\ Forall (fun v => v <= mx) (telems d0).
Proof.
  intros Hne. unfold tmax. destruct (telems d0) as [|a l]; [congruence|].
  exists (foldl Rmax a l). split; [reflexivity|]. apply foldl_Rmax_spec.
Qed.

Lemma get_default_par_layout (self : model) (b : base) (d0 : tensor) (o : list R)
    (mx : R) :
  attrs self = Ok b -> get_default_optpars self = Ok o -> tmax d0 = Ok mx ->
  get_default_par self d0 = Ok (replicate (nstars b) mx ++ [0; 0; bkg0 b] ++ o).
Proof.
  intros Ha Ho Hm. unfold get_default_par. rewrite Hm, Ha, Ho.
  cbn [fmap result_fmap mbind result_bind].
  now rewrite fmap_replicate, Rmult_1_r.
Qed.

(** X7: the default parameter vector is the peak of the observed image
    once per star, then a zero x-shift, a zero y-shift and the background
    estimate given at construction, then the default optical parameters of
    the shape model; on an empty image the call raises [ValueError]. *)
Theorem default_parameters_layout (self : model) (b : base) (d0 : tensor)
    (o : list R) :
  attrs self = Ok b -> get_default_optpars self = Ok o ->
  (telems d0 <> [] ->
     exists mx, In mx (telems d0) /\ Forall (fun v => v <= mx) (telems d0)
       /\ get_default_par self d0
          = Ok (replicate (nstars b) mx ++ [0; 0; bkg0 b] ++ o))
  /\ (telems d0 = [] -> get_default_par self d0 = Raise ValueError).
Proof.
  intros Ha Ho. split.
  - intros Hne. destruct (tmax_spec d0 Hne) as (mx & Hm & Hin & Hall).
    exists mx. split; [exact Hin|]. split; [exact Hall|].
    now apply get_default_par_layout.
  - intros He. unfold get_default_par, tmax. now rewrite He.
Qed.

(** Checks a list of literal values against literal rows. *)
Ltac check_rows :=
  repeat (apply List.Forall2_cons; [simpl; lra|]); apply List.Forall2_nil.

Lemma within_bounds_flux (n : nat) (mx : R) :
  0 <= mx -> within_bounds (replicate n mx) (replicate n (Fin 0, Infty)).
Proof.
  intros H. unfold within_bounds. induction n as [|n IH]; simpl.
  - apply List.Forall2_nil.
  - apply List.Forall2_cons; [exact H|exact IH].
Qed.

Lemma within_bounds_base (n : nat) (mx bk : R) :
  0 <= mx -> 0 <= bk ->
  within_bounds (replicate n mx ++ [0; 0; bk]) (base_bounds n).
Proof.
  intros Hm Hb. unfold base_bounds. apply Forall2_app.
  - now apply within_bounds_flux.
  - check_rows.
Qed.

(** X8: for the Gaussian and Moffat models the default parameter vector
    satisfies the bounds table row by row, provided the peak of the image
    and the background estimate are not negative. *)
Theorem default_parameters_within_bounds (sh : nat * nat) (cr rr : R)
    (sx sy : list R) (bk : R) (ls : Loss) (src : Source) (d0 : tensor) (mx : R)
    (self : model) :
  Gaussian_init sh cr rr sx sy bk ls src = Ok self
  \/ Moffat_init sh cr rr sx sy bk ls src = Ok self ->
  tmax d0 = Ok mx -> 0 <= mx -> 0 <= bk ->
  exists v bs, get_default_par self d0 = Ok v /\ get_bounds self = Ok bs
    /\ within_bounds v bs.
Proof.
  intros Hinit Hm Hmx Hbk. unfold Gaussian_init, Moffat_init in Hinit.
  destruct (Model_init sh cr rr sx sy bk ls src) as [b|] eqn:Hb;
    cbn [mbind result_bind] in Hinit; [|destruct Hinit; discriminate].
  apply Model_init_Ok in Hb.
  destruct Hb as (_ & _ & _ & Hx & _ & Hbk0 & _ & _ & Hbs & _).
  destruct Hinit as [[= <-]|[= <-]].
  - eexists _, _. split; [|split].
    + now apply (get_default_par_layout _ (with_bounds b (bounds b ++ Gaussian_bounds))
                   d0 Gaussian_get_default_optpars mx).
    + reflexivity.
    + cbn. rewrite Hbs, Hbk0. unfold nstars. cbn. rewrite Hx.
      change (replicate (length sx) mx ++ [0; 0; bk] ++ Gaussian_get_default_optpars)
        with (replicate (length sx) mx ++ [0; 0; bk] ++ [1; 0; 1]).
      rewrite (app_assoc _ [0; 0; bk] [1; 0; 1]).
      apply Forall2_app; [now apply within_bounds_base|].
      check_rows.
  - eexists _, _. split; [|split].
    + now apply (get_default_par_layout _ (with_bounds b (bounds b ++ Moffat_bounds))
                   d0 Moffat_get_default_optpars mx).
    + reflexivity.
    + cbn. rewrite Hbs, Hbk0. unfold nstars. cbn. rewrite Hx.
      change (replicate (length sx) mx ++ [0; 0; bk] ++ Moffat_get_default_optpars)
        with (replicate (length sx) mx ++ [0; 0; bk] ++ [1; 0; 1; 1]).
      rewrite (app_assoc _ [0; 0; bk] [1; 0; 1; 1]).
      apply Forall2_app; [now apply within_bounds_base|].
      check_rows.
Qed.

(** ** Constructor calls that cannot succeed *)

Lemma instantiate_nested_wrapper (depth : nat) (kw : kwargs) :
  kw_model kw = Some "PRFWrap"%string ->
  instantiate depth CPRFWrap kw = Raise RecursionError.
Proof.
  intros Hm. induction depth as [|d IH]; simpl; [reflexivity|].
  unfold eval_model. rewrite Hm. cbn. now rewrite IH.
Qed.

(** X9: a wrapper asked to wrap the wrapper class itself never returns:
    the constructor calls nest until the recursion limit and the call
    raises [RecursionError], whatever the other arguments. *)
Theorem PRFWrap_of_PRFWrap (kw : kwargs) :
  kw_model kw = Some "PRFWrap"%string -> PRFWrap_init kw = Raise RecursionError.
Proof. intros Hm. now apply instantiate_nested_wrapper. Qed.

(** X10: the wrapper hands all its keyword arguments, [model] included,
    to the wrapped constructor; [Zernike.__init__] takes no such keyword,
    so wrapping the Zernike model raises [TypeError], whatever the other
    arguments. *)
Theorem PRFWrap_of_Zernike (kw : kwargs) :
  kw_model kw = Some "Zernike"%string -> PRFWrap_init kw = Raise TypeError.
Proof.
  intros Hm. unfold PRFWrap_init, recursion_limit. simpl.
  unfold eval_model. rewrite Hm. cbn.
  destruct (kw_shape kw); cbn; [|reflexivity].
  destruct (kw_col_ref kw); cbn; [|reflexivity].
  destruct (kw_row_ref kw); cbn; [|reflexivity].
  destruct (kw_xc kw); cbn; [|reflexivity].
  destruct (kw_yc kw); cbn; [|reflexivity].
  destruct (kw_bkg0 kw); cbn; [|reflexivity].
  destruct (kw_loss kw); cbn; [|reflexivity].
  destruct (kw_source kw); cbn; reflexivity.
Qed.

(** ** A basis with more modes than coefficients *)

Section ShortMask.
Variables (zz : TorchZern) (mask : list Z) (shape : nat * nat).

Lemma Zernike_mode_step (theta : tensor) (j k : nat)
    (cache : gmap nat (gmap nat tensor)) :
  is_Some (cache !! j) ->
  (mask !! k = None -> Zernike_mode zz mask shape theta j cache k = Raise IndexError)
  /\ (Zernike_mode zz mask shape theta j cache k = Raise IndexError
      \/ exists cache', Zernike_mode zz mask shape theta j cache k = Ok cache'
           /\ is_Some (cache' !! j)).
Proof.
  intros [cj Hcj]. unfold Zernike_mode, angular, index, getitem.
  destruct (mask !! k) as [mk|]; cbn [mbind result_bind];
    [|split; [reflexivity|now left]].
  split; [discriminate|]. rewrite Hcj.
  destruct (truthy mk).
  - destruct (mtab zz !! k) as [m|]; cbn [mbind result_bind]; [|now left].
    destruct (0 <=? m)%Z; cbn [mbind result_bind];
      right; eexists; (split; [reflexivity|]); rewrite lookup_insert_eq; eauto.
  - cbn [mbind result_bind].
    right; eexists; (split; [reflexivity|]); rewrite lookup_insert_eq; eauto.
Qed.

Lemma Zernike_modes_short_mask (theta : tensor) (j : nat) (ks : list nat) :
  forall cache, is_Some (cache !! j) ->
  (exists k, In k ks /\ mask !! k = None) ->
  foldM (Zernike_mode zz mask shape theta j) cache ks = Raise IndexError.
Proof.
  induction ks as [|k0 ks IH]; intros cache Hj (k & Hin & Hk); [destruct Hin|].
  simpl. destruct (Zernike_mode_step theta j k0 cache Hj) as [Hnone Hstep].
  destruct Hstep as [Hr|(cache' & Hc & Hj')].
  - now rewrite Hr.
  - rewrite Hc. cbn [mbind result_bind]. apply IH; [exact Hj'|].
    destruct Hin as [<-|Hin]; [|eauto].
    rewrite (Hnone Hk) in Hc. discriminate.
Qed.

Lemma Zernike_star_short_mask (b : base) (sx sy : list R) (j : nat)
    (st : gmap nat (gmap nat tensor) * gmap nat (tensor * tensor)) :
  tshape (x b) = tshape (y b) -> (length mask < nk zz)%nat ->
  Zernike_star b zz mask shape sx sy st j = Raise IndexError.
Proof.
  intros Hs Hlen. destruct st as [cache coords]. unfold Zernike_star, index.
  destruct (sx !! j) as [xo|]; cbn [mbind result_bind]; [|reflexivity].
  destruct (sy !! j) as [yo|]; cbn [mbind result_bind]; [|reflexivity].
  destruct (get_polar_coords_total b xo yo Hs) as (rt & Hrt).
  rewrite Hrt. cbn [mbind result_bind].
  rewrite Zernike_modes_short_mask; [reflexivity| |].
  - rewrite lookup_insert_eq. eauto.
  - exists (length mask). split; [apply in_seq; lia|].
    apply lookup_ge_None. lia.
Qed.

End ShortMask.

(** X11: the mode mask has the 15 entries of the hard-coded coefficient
    vector.  When the basis of order [zern_n] has more than 15 modes and
    there is at least one star, the constructor loops run past the end of
    the mask and [Zernike.__init__] raises [IndexError]. *)
Theorem Zernike_init_more_modes (sh : nat * nat) (cr rr : R) (sx sy : list R)
    (bk : R) (ls : Loss) (src : Source) (zern_n : nat) (p : tensor) :
  make_prf_from_source src = Ok p ->
  (forall p0, exists r, tnc_minimize p zern_n p0 = Ok r) ->
  (15 < Zern_nk zern_n)%nat -> sx <> [] ->
  Zernike_init sh cr rr sx sy bk ls src zern_n = Raise IndexError.
Proof.
  intros Hp Hfit Hnk Hsx.
  destruct (Model_init_total sh cr rr sx sy bk ls src p Hp) as (b & Hb).
  unfold Zernike_init. rewrite Hb. cbn [mbind result_bind].
  apply Model_init_Ok in Hb.
  destruct Hb as (Hs & _ & _ & Hx & _ & _ & Hgy & Hgx & _ & Hprf).
  rewrite Hp in Hprf. injection Hprf as <-.
  destruct (Hfit ([1; 0; 0; 1e-3; 0] ++ replicate (nk (TorchZern_new zern_n)) 0))
    as (r & Hr).
  rewrite Hr. cbn [mbind result_bind]. unfold Zernike_tables.
  assert (Hn : exists n, nstars b = S n).
  { unfold nstars. rewrite Hx. destruct sx; [congruence|]. simpl. eauto. }
  destruct Hn as (n & ->). cbn [seq foldM].
  rewrite Zernike_star_short_mask; [reflexivity| |].
  - rewrite Hgx, Hgy. destruct sh as [s1 s2].
    destruct (_init_grid_shape s1 s2 cr rr) as [Sy Sx]. congruence.
  - rewrite make_mode_mask_length. simpl. exact Hnk.
Qed.

(** ** [TorchZern.angular] *)

Lemma telems_tmap_Forall (P : R -> Prop) (f : R -> R) (t : tensor) :
  (forall a, P (f a)) -> Forall P (telems (tmap f t)).
Proof.
  intros H. destruct t as [a|u|c m]; simpl.
  - repeat constructor. apply H.
  - apply Forall_fmap, Forall_forall. intros a _. apply H.
  - induction m as [|r m IH]; simpl; [constructor|].
    apply Forall_app. split; [|exact IH].
    apply Forall_fmap, Forall_forall. intros a _. apply H.
Qed.

(** X12: the angular basis image of a mode has the shape of [theta] and
    values between -1 and 1; a mode with azimuthal order 0 is the constant
    image 1; a mode index outside the table raises [IndexError]. *)
Theorem angular_image (zz : TorchZern) (k : nat) (theta : tensor) :
  (forall v, angular zz k theta = Ok v ->
     tshape v = tshape theta /\ Forall (fun a => -1 <= a <= 1) (telems v))
  /\ (mtab zz !! k = Some 0%Z -> angular zz k theta = Ok (tmap (fun _ => 1) theta))
  /\ (mtab zz !! k = None -> angular zz k theta = Raise IndexError).
Proof.
  unfold angular, index. split; [|split].
  - intros v. destruct (mtab zz !! k) as [m|]; cbn [mbind result_bind]; [|discriminate].
    destruct (0 <=? m)%Z; intros [= <-]; rewrite tshape_tmap; (split; [reflexivity|]);
      apply telems_tmap_Forall; intros a; [apply COS_bound|apply SIN_bound].
  - intros ->. cbn [mbind result_bind]. simpl. f_equal. apply tmap_ext.
    intros a. rewrite Rmult_0_l. apply cos_0.
  - intros ->. reflexivity.
Qed.

Lemma zip_with_fmap_same (F : R -> R -> R) (f g : R -> R) (u : list R) :
  zip_with F (f <$> u) (g <$> u) = (fun a => F (f a) (g a)) <$> u.
Proof. induction u as [|a u IH]; simpl; [reflexivity|]. f_equal. apply IH. Qed.

Lemma tzip_tmap_same (F : R -> R -> R) (f g : R -> R) (t : tensor) :
  tzip F (tmap f t) (tmap g t) = tmap (fun a => F (f a) (g a)) t.
Proof.
  destruct t as [a|u|c m]; simpl; [reflexivity| |].
  - now rewrite zip_with_fmap_same.
  - f_equal. induction m as [|r m IH]; simpl; [reflexivity|].
    rewrite zip_with_fmap_same. f_equal. apply IH.
Qed.

(** X13: two modes of opposite non-zero azimuthal order [m] and [-m] are
    the cosine and the sine of [m * theta]: at every pixel their squares
    add up to 1. *)
Theorem angular_pair (zz : TorchZern) (k1 k2 : nat) (m : Z) (theta : tensor) :
  mtab zz !! k1 = Some m -> mtab zz !! k2 = Some (- m)%Z -> (0 < m)%Z ->
  exists c s,
    angular zz k1 theta = Ok c /\ angular zz k2 theta = Ok s
    /\ c = tmap (fun t => cos (IZR m * t)) theta
    /\ s = tmap (fun t => sin (IZR m * t)) theta
    /\ tzip (fun a b => a ^ 2 + b ^ 2) c s = tmap (fun _ => 1) theta.
Proof.
  intros H1 H2 Hm. unfold angular, index. rewrite H1, H2. cbn [mbind result_bind].
  destruct (Z.leb_spec 0 m) as [_|Hneg]; [|lia].
  destruct (Z.leb_spec 0 (- m)) as [Hle|_]; [lia|].
  rewrite Z.opp_involutive.
  eexists _, _. repeat split.
  rewrite tzip_tmap_same. apply tmap_ext. intros a.
  rewrite Rplus_comm. simpl. rewrite !Rmult_1_r. apply sin2_cos2.
Qed.

(** ** [TorchZern.Rnm]: Horner's rule *)

Lemma horner_polyval (x : R) (rest : list R) :
  forall acc, foldl (fun c r => c * x + r) acc rest
              = acc * x ^ length rest + polyval rest x.
Proof.
  induction rest as [|r rest IH]; intros acc; simpl; [ring|].
  rewrite IH. ring.
Qed.

Lemma Rnm_step (rho : tensor) (g : R -> R) (r : R) :
  twf rho ->
  (cr ← tmul (tmap g rho) rho; tadd cr (T0 r))
  = Ok (tmap (fun x => g x * x + r) rho).
Proof.
  intros Hwf. unfold tmul, tadd.
  rewrite tbin_same by (rewrite ?tshape_tmap; auto using twf_tmap).
  cbn [mbind result_bind]. rewrite tbin_scalar_r.
  rewrite <- (tmap_id rho) at 2. now rewrite tzip_tmap_same, tmap_tmap.
Qed.

Lemma Rnm_fold (rho : tensor) (rest : list R) :
  twf rho ->
  forall g : R -> R,
    foldM (fun c r => cr ← tmul c rho; tadd cr r) (tmap g rho) (T0 <$> rest)
    = Ok (tmap (fun x => foldl (fun c r => c * x + r) (g x) rest) rho).
Proof.
  intros Hwf. induction rest as [|r rest IH]; intros g; [reflexivity|].
  rewrite fmap_cons. cbn [foldM]. rewrite (Rnm_step rho g r Hwf).
  cbn [mbind result_bind]. apply (IH (fun x => g x * x + r)).
Qed.

(** X14: [Rnm] evaluates the radial polynomial of mode [k] by Horner's
    rule: for a row of at least two coefficients the result is the
    polynomial with these coefficients, highest power first, at every
    value of [rho].  A row of one coefficient gives that number itself, an
    empty row raises [TypeError] and a mode outside the table raises
    [IndexError]. *)
Theorem Rnm_horner (rhotab : list (list R)) (k : nat) (rho : tensor) (row : list R) :
  twf rho -> rhotab !! k = Some row ->
  ((2 <= length row)%nat -> Rnm rhotab k rho = Ok (tmap (polyval row) rho))
  /\ (forall c0, row = [c0] -> Rnm rhotab k rho = Ok (T0 c0))
  /\ (row = [] -> Rnm rhotab k rho = Raise TypeError)
  /\ (forall k', rhotab !! k' = None -> Rnm rhotab k' rho = Raise IndexError).
Proof.
  intros Hwf Hrow. unfold Rnm. rewrite (index_Some _ _ _ Hrow).
  cbn [mbind result_bind]. split; [|split; [|split]].
  - intros Hl. destruct row as [|c0 [|c1 rest]]; simpl in Hl; try lia.
    rewrite !fmap_cons. cbn [reduce foldM].
    assert (H1 : (cr ← tmul (T0 c0) rho; tadd cr (T0 c1))
                 = Ok (tmap (fun x => c0 * x + c1) rho)).
    { unfold tmul, tadd. cbn [tbin mbind result_bind].
      now rewrite tbin_scalar_r, tmap_tmap. }
    rewrite H1. cbn [mbind result_bind]. rewrite Rnm_fold by exact Hwf.
    f_equal. apply tmap_ext. intros x. rewrite horner_polyval. simpl. ring.
  - intros c0 ->. reflexivity.
  - intros ->. reflexivity.
  - intros k' Hk'. unfold index. now rewrite Hk'.
Qed.

(** ** [TorchZern.ck] *)

(** X15: with the Noll normalisation the constant of a mode of radial
    order [n >= 0] has square [n + 1] when the azimuthal order is 0 and
    [2 * (n + 1)] otherwise, so the second is [sqrt 2] times the first;
    without it the constant is 1. *)
Theorem ck_noll (n m : Z) :
  (0 <= n)%Z ->
  ck true n 0 * ck true n 0 = IZR n + 1
  /\ (m <> 0%Z -> ck true n m * ck true n m = 2 * (IZR n + 1)
                /\ ck true n m = sqrt 2 * ck true n 0)
  /\ ck false n m = 1.
Proof.
  intros Hn. assert (0 <= IZR n) by (now apply IZR_le).
  unfold ck. split; [|split].
  - simpl. replace (IZR n + 1.0) with (IZR n + 1) by lra. apply sqrt_sqrt. lra.
  - intros Hm. destruct (Z.eqb_spec m 0) as [|_]; [contradiction|]. simpl.
    replace (2.0 * (IZR n + 1.0)) with (2 * (IZR n + 1)) by lra.
    replace (IZR n + 1.0) with (IZR n + 1) by lra.
    split; [apply sqrt_sqrt; lra|]. apply sqrt_mult; lra.
  - lra.
Qed.

(** ** [Zernike.get_polar_coords] *)

Lemma tget2_tzip (f : R -> R -> R) (t1 t2 : tensor) (i j : nat) (a b : R) :
  tget2 t1 i j = Ok a -> tget2 t2 i j = Ok b ->
  tget2 (tzip f t1 t2) i j = Ok (f a b).
Proof.
  destruct t1 as [a1|u|c1 m1], t2 as [b1|v|c2 m2]; simpl; try discriminate.
  unfold index. rewrite lookup_zip_with.
  destruct (m1 !! i) as [r1|]; cbn [mbind result_bind]; [|discriminate].
  destruct (m2 !! i) as [r2|]; cbn [mbind result_bind]; [|discriminate].
  cbn. rewrite lookup_zip_with.
  destruct (r1 !! j) as [a'|]; [|discriminate].
  destruct (r2 !! j) as [b'|]; [|discriminate].
  intros [= <-] [= <-]. reflexivity.
Qed.

Lemma get_polar_coords_form (b : base) (xo yo : R) :
  tshape (x b) = tshape (y b) -> twf (x b) -> twf (y b) ->
  get_polar_coords b xo yo
  = Ok (tmap sqrt (tzip Rplus (tsq (tmap (fun a => a - xo) (x b)))
                               (tsq (tmap (fun a => a - yo) (y b)))),
        tzip (fun v u => atan2 v u) (tmap (fun a => a - yo) (y b))
                                    (tmap (fun a => a - xo) (x b))).
Proof.
  intros Hs Wx Wy. unfold get_polar_coords, tsub, tadd, tsq. rewrite !tbin_scalar_r.
  cbn [mbind result_bind].
  rewrite (tbin_same Rplus);
    [|rewrite !tshape_tmap; exact Hs|auto using twf_tmap|auto using twf_tmap].
  cbn [mbind result_bind].
  rewrite (tbin_same (fun v u => atan2 v u));
    [|rewrite !tshape_tmap; now symmetry|auto using twf_tmap|auto using twf_tmap].
  reflexivity.
Qed.

(** X16: [get_polar_coords] returns two arrays of the cutout shape: at
    pixel [(i, j)], [rho] is the Euclidean distance from the pixel
    [(col_ref + j, row_ref + i)] to [(xo, yo)] and [theta] is [atan2] of
    the row offset and the column offset. *)
Theorem polar_coordinates (b : base) (s1 s2 i j : nat) (xo yo : R) :
  base_inv b -> shape b = (s1, s2) -> (i < s1)%nat -> (j < s2)%nat ->
  exists rho theta,
    get_polar_coords b xo yo = Ok (rho, theta)
    /\ tshape rho = [s1; s2] /\ tshape theta = [s1; s2]
    /\ tget2 rho i j
       = Ok (sqrt ((col_ref b + INR j - xo) ^ 2 + (row_ref b + INR i - yo) ^ 2))
    /\ tget2 theta i j
       = Ok (atan2 (row_ref b + INR i - yo) (col_ref b + INR j - xo)).
Proof.
  intros (Hy & Hx & _) Hs Hi Hj. rewrite Hs in Hy, Hx.
  destruct (_init_grid_shape s1 s2 (col_ref b) (row_ref b)) as [Sy Sx].
  destruct (_init_grid_wf s1 s2 (col_ref b) (row_ref b)) as [Wy Wx].
  pose proof (_init_grid_y s1 s2 (col_ref b) (row_ref b) i j Hi Hj) as Gy.
  pose proof (_init_grid_x s1 s2 (col_ref b) (row_ref b) i j Hi Hj) as Gx.
  rewrite <- Hy in Sy, Wy, Gy. rewrite <- Hx in Sx, Wx, Gx.
  eexists _, _. split; [apply get_polar_coords_form; congruence|].
  unfold tsq. repeat split.
  - rewrite tshape_tmap, tshape_tzip, !tshape_tmap; [exact Sx|].
    rewrite !tshape_tmap. congruence.
  - rewrite tshape_tzip, !tshape_tmap; [exact Sy|].
    rewrite !tshape_tmap. congruence.
  - apply tget2_tmap. apply tget2_tzip.
    + apply (tget2_tmap (fun a => a ^ 2)). now apply (tget2_tmap (fun a => a - xo)).
    + apply (tget2_tmap (fun a => a ^ 2)). now apply (tget2_tmap (fun a => a - yo)).
  - apply (tget2_tzip (fun v u => atan2 v u)).
    + now apply (tget2_tmap (fun a => a - yo)).
    + now apply (tget2_tmap (fun a => a - xo)).
Qed.

(** ** The Zernike model evaluates *)

Lemma tzeros_wf (sh : nat * nat) : twf (tzeros sh).
Proof. unfold tzeros. simpl. apply Forall_replicate. apply length_replicate. Qed.

Lemma angular_shape (zz : TorchZern) (k : nat) (theta v : tensor) :
  angular zz k theta = Ok v -> tshape v = tshape theta /\ (twf theta -> twf v).
Proof.
  unfold angular. destruct (index (mtab zz) k) as [m|]; cbn [mbind result_bind];
    [|discriminate].
  destruct (0 <=? m)%Z; intros [= <-]; rewrite tshape_tmap;
    (split; [reflexivity|apply twf_tmap]).
Qed.

Section Shaped.
Variables (zz : TorchZern) (mask : list Z) (sh : nat * nat).

Lemma Zernike_star_shaped (b : base) (sx sy : list R) (j : nat)
    (cache cache' : gmap nat (gmap nat tensor))
    (coords coords' : gmap nat (tensor * tensor)) :
  tshape (x b) = tshape (y b) -> twf (x b) -> twf (y b) ->
  tshape (tzeros sh) = tshape (x b) ->
  Zernike_star b zz mask sh sx sy (cache, coords) j = Ok (cache', coords') ->
  star_shaped (nk zz) (tshape (x b)) cache' j
  /\ (forall j', j' <> j -> cache' !! j' = cache !! j').
Proof.
  intros Hs Wx Wy Hz. unfold Zernike_star.
  destruct (index sx j) as [xo|]; cbn [mbind result_bind]; [|discriminate].
  destruct (index sy j) as [yo|]; cbn [mbind result_bind]; [|discriminate].
  rewrite (get_polar_coords_form b xo yo Hs Wx Wy). cbn [mbind result_bind snd].
  set (theta := tzip (fun v u => atan2 v u) (tmap (fun a => a - yo) (y b))
                  (tmap (fun a => a - xo) (x b))).
  assert (St : tshape theta = tshape (x b)).
  { unfold theta. rewrite tshape_tzip, tshape_tmap by (now rewrite !tshape_tmap).
    now symmetry. }
  assert (Wt : twf theta).
  { unfold theta. apply twf_tzip; rewrite ?tshape_tmap; auto using twf_tmap. }
  destruct (foldM _ (<[j := ∅]> cache) (seq 0 (nk zz))) as [c1|] eqn:Hf;
    cbn [mbind result_bind]; [|discriminate].
  intros [= <- <-].
  destruct (Zernike_modes_Ok zz mask sh theta j _ _ _ ∅ Hf)
    as (cj' & Hj' & Hoth & Hout & Hin).
  { apply lookup_insert_eq. }
  split.
  - exists cj'. split; [exact Hj'|]. split;
      [|intros k Hk; rewrite Hout by (rewrite in_seq; lia); apply lookup_empty].
    intros k Hk.
    destruct (mask !! k) as [mk|] eqn:Hmk.
    + destruct (Hin k mk) as (v & Hv & Hzero & Hang); [apply in_seq; lia|exact Hmk|].
      exists v. split; [exact Hv|].
      destruct (truthy mk).
      * destruct (angular_shape zz k theta v (Hang eq_refl)) as [Sv Wv].
        split; [congruence|auto].
      * rewrite (Hzero eq_refl). split; [exact Hz|apply tzeros_wf].
    + rewrite (Zernike_modes_short_mask zz mask sh theta j (seq 0 (nk zz))) in Hf;
        [discriminate| |].
      * rewrite lookup_insert_eq. eauto.
      * exists k. split; [apply in_seq; lia|exact Hmk].
  - intros j' Hne. rewrite Hoth by exact Hne. now apply lookup_insert_ne.
Qed.

Lemma Zernike_stars_shaped (b : base) (sx sy : list R) (js : list nat) :
  tshape (x b) = tshape (y b) -> twf (x b) -> twf (y b) ->
  tshape (tzeros sh) = tshape (x b) ->
  forall st st',
    foldM (Zernike_star b zz mask sh sx sy) st js = Ok st' ->
    forall j, In j js \/ star_shaped (nk zz) (tshape (x b)) (fst st) j ->
      star_shaped (nk zz) (tshape (x b)) (fst st') j.
Proof.
  intros Hs Wx Wy Hz. induction js as [|j0 js IH]; intros st st'; simpl.
  - intros [= <-] j [[]|H]. exact H.
  - destruct (Zernike_star b zz mask sh sx sy st j0) as [st1|] eqn:H1;
      cbn [mbind result_bind]; [|discriminate].
    intros Hfold j Hj. destruct st as [cache coords], st1 as [cache1 coords1].
    apply Zernike_star_shaped in H1; try assumption. destruct H1 as [Hok Hoth].
    apply (IH _ _ Hfold).
    destruct (Nat.eq_dec j j0) as [->|Hne]; [now right|].
    destruct Hj as [[Heq|Hin]|(cj & Hcj & Hm)]; [congruence|now left|right].
    exists cj. split; [|exact Hm]. simpl in *. now rewrite Hoth.
Qed.

End Shaped.

Lemma Zernike_term_shaped (zn : zern) (zp : list R) (j i n : nat) (shp : list nat)
    (acc : tensor) :
  star_shaped n shp (cache zn) j ->
  (i < n)%nat -> (i < length (mode_mask zn))%nat -> (i < length zp)%nat ->
  tshape acc = shp -> twf acc ->
  exists acc', Zernike_term zn (T1 zp) j acc i = Ok acc'
    /\ tshape acc' = shp /\ twf acc'.
Proof.
  intros (cj & Hcj & Hm & _) Hi Hmask Hzp Sa Wa.
  destruct (lookup_lt_is_Some_2 _ _ Hmask) as [mk Hmk].
  destruct (lookup_lt_is_Some_2 _ _ Hzp) as [p Hp].
  destruct (Hm i Hi) as (v & Hv & Sv & Wv).
  unfold Zernike_term, index, getitem. rewrite Hmk. cbn [mbind result_bind tindex].
  unfold index. rewrite Hp. cbn [fmap result_fmap mbind result_bind].
  destruct (truthy mk); [|eauto].
  rewrite Hcj. cbn [mbind result_bind]. rewrite Hv. cbn [mbind result_bind].
  unfold tmul. cbn [tbin mbind result_bind]. unfold tiadd, tadd.
  rewrite tbin_same by (rewrite ?tshape_tmap; auto using twf_tmap; congruence).
  cbn [mbind result_bind].
  assert (Sr : tshape (tzip Rplus acc (tmap (Rmult p) v)) = tshape acc).
  { apply tshape_tzip. rewrite tshape_tmap. congruence. }
  rewrite decide_True by exact Sr.
  eexists. split; [reflexivity|]. split; [congruence|].
  apply twf_tzip; rewrite ?tshape_tmap; auto using twf_tmap; congruence.
Qed.

Lemma Zernike_terms_shaped (zn : zern) (zp : list R) (j n : nat) (shp : list nat)
    (idx : list nat) :
  star_shaped n shp (cache zn) j ->
  (forall i, In i idx ->
     (i < n)%nat /\ (i < length (mode_mask zn))%nat /\ (i < length zp)%nat) ->
  forall acc, tshape acc = shp -> twf acc ->
  exists acc', foldM (Zernike_term zn (T1 zp) j) acc idx = Ok acc'
    /\ tshape acc' = shp /\ twf acc'.
Proof.
  intros Hc. induction idx as [|i idx IH]; intros His acc Sa Wa; simpl; [eauto|].
  destruct (His i) as (H1 & H2 & H3); [now left|].
  destruct (Zernike_term_shaped zn zp j i n shp acc Hc H1 H2 H3 Sa Wa)
    as (acc1 & Ht & S1 & W1).
  rewrite Ht. cbn [mbind result_bind].
  apply IH; [|exact S1|exact W1]. intros i' Hin. apply His. now right.
Qed.

Lemma Zernike_psf_shaped (b : base) (zn : zern) (dx dy : tensor) (a c : R)
    (zp : list R) (j n : nat) :
  star_shaped n (tshape dx) (cache zn) j ->
  tshape dx = tshape dy -> twf dx -> twf dy ->
  tshape (tzeros (shape b)) = tshape dx ->
  (length zp <= n)%nat -> (length zp <= length (mode_mask zn))%nat ->
  exists p, Zernike_psf b zn dx dy (T1 (a :: c :: zp)) j = Ok p
    /\ tshape p = tshape dx /\ twf p /\ Forall (fun v => 0 < v) (telems p).
Proof.
  intros Hc Hs Wx Wy Hz Hn Hmask. unfold Zernike_psf.
  change (ttake 2 (T1 (a :: c :: zp))) with (Ok (T1 [a; c])).
  change (tdrop 2 (T1 (a :: c :: zp))) with (Ok (T1 zp)).
  cbn [titer fmap list_fmap mbind result_bind tlen].
  destruct (Zernike_terms_shaped zn zp j n (tshape dx) (seq 0 (length zp)) Hc)
    with (acc := tzeros (shape b)) as (psf_c & Hf & Sc & Wc).
  { intros i Hin. apply in_seq in Hin. lia. }
  { exact Hz. }
  { apply tzeros_wf. }
  rewrite Hf. cbn [mbind result_bind]. unfold tmul, tsub, tsq. cbn [tmap tbin mbind result_bind].
  rewrite !tmap_tmap.
  rewrite (tbin_same Rminus);
    [|rewrite !tshape_tmap; exact Hs|auto using twf_tmap|auto using twf_tmap].
  cbn [mbind result_bind].
  set (g := tzip Rminus (tmap (fun a0 => - a * a0 ^ 2) dx) (tmap (fun a0 => c * a0 ^ 2) dy)).
  assert (Sg : tshape g = tshape dx).
  { unfold g. rewrite tshape_tzip, tshape_tmap by (now rewrite !tshape_tmap).
    reflexivity. }
  assert (Wg : twf g).
  { unfold g. apply twf_tzip; rewrite ?tshape_tmap; auto using twf_tmap. }
  rewrite (tbin_same Rmult);
    [|rewrite !tshape_tmap; congruence|auto using twf_tmap|auto using twf_tmap].
  eexists. split; [reflexivity|].
  assert (Se : tshape (tmap exp psf_c) = tshape (tmap exp g))
    by (rewrite !tshape_tmap; congruence).
  split; [rewrite tshape_tzip, tshape_tmap by exact Se; exact Sc|].
  split; [apply twf_tzip; auto using twf_tmap|].
  rewrite tzip_tmap_args by congruence.
  apply telems_tzip_Forall; [congruence|].
  intros u v. apply Rmult_lt_0_compat; apply exp_pos.
Qed.

Lemma Zernike_init_shaped (sh : nat * nat) (cr rr : R) (sx sy : list R) (bk : R)
    (ls : Loss) (src : Source) (zern_n : nat) (b : base) (zn : zern) :
  Zernike_init sh cr rr sx sy bk ls src zern_n = Ok (IZernike b zn) ->
  shape b = sh /\ xc b = sx /\ yc b = sy /\ base_inv b
  /\ tshape (x b) = [fst sh; snd sh] /\ tshape (y b) = [fst sh; snd sh]
  /\ twf (x b) /\ twf (y b)
  /\ mode_mask zn = replicate 15 1%Z
  /\ forall j, (j < length sx)%nat ->
       star_shaped (Zern_nk zern_n) [fst sh; snd sh] (cache zn) j.
Proof.
  intros H. pose proof (Zernike_init_mode_mask _ _ _ _ _ _ _ _ _ _ _ H) as Hmask.
  apply Zernike_init_Ok in H.
  destruct H as (b' & zn' & r & [= <- <-] & Hb & _ & Hz).
  pose proof (Model_init_inv _ _ _ _ _ _ _ _ _ [] Hb) as [Hinv _].
  apply Model_init_Ok in Hb.
  destruct Hb as (Hs & Hc & Hr & Hx & Hy & _ & Hgy & Hgx & _ & _).
  destruct sh as [s1 s2].
  destruct (_init_grid_shape s1 s2 cr rr) as [Sy Sx].
  destruct (_init_grid_wf s1 s2 cr rr) as [Wy Wx].
  rewrite <- Hgy in Sy, Wy. rewrite <- Hgx in Sx, Wx.
  repeat (split; [assumption|]).
  intros j Hj. unfold Zernike_tables in Hz.
  destruct (foldM _ (∅, ∅) (seq 0 (nstars b))) as [st|] eqn:Hf;
    cbn [mbind result_bind] in Hz; [|discriminate].
  injection Hz as <-. cbn [cache].
  pose proof (Zernike_stars_shaped (TorchZern_new zern_n)
                (make_mode_mask zpars_literal 0) (s1, s2) b sx sy
                (seq 0 (nstars b))) as Hstars.
  rewrite Sx in Hstars. apply (Hstars (eq_sym Sy) Wx Wy (tzeros_shape (s1, s2)) _ _ Hf).
  left. apply in_seq. unfold nstars. rewrite Hx. lia.
Qed.

(** X17: a Zernike model that was constructed evaluates: for a star
    [k] and an optical parameter vector [(a, c, zpars...)] with no more
    coefficients than the basis has modes (and at most 15), [evaluate]
    returns an array of the cutout shape; with unit flux and
    normalisation on a non-empty cutout its values sum to 1. *)
Theorem Zernike_evaluate_total (sh : nat * nat) (cr rr : R) (sx sy : list R)
    (bk : R) (ls : Loss) (src : Source) (zern_n : nat) (b : base) (zn : zern)
    (k : nat) (flux xs ys a c : R) (zp : list R) (norm : bool) :
  Zernike_init sh cr rr sx sy bk ls src zern_n = Ok (IZernike b zn) ->
  (k < length sx)%nat -> (k < length sy)%nat ->
  (length zp <= Zern_nk zern_n)%nat -> (length zp <= 15)%nat ->
  exists t,
    evaluate (IZernike b zn) flux xs ys (T1 (a :: c :: zp)) k norm = Ok t
    /\ tshape t = [fst sh; snd sh]
    /\ ((1 <= fst sh)%nat -> (1 <= snd sh)%nat -> flux = 1 -> norm = true ->
        rsum (telems t) = 1).
Proof.
  intros Hinit Hkx Hky Hnk H15.
  destruct (Zernike_init_shaped _ _ _ _ _ _ _ _ _ _ _ Hinit)
    as (Hs & Hx & Hy & _ & Sx & Sy & Wx & Wy & Hmask & Hcache).
  destruct (lookup_lt_is_Some_2 sx k Hkx) as [xck Hxck].
  destruct (lookup_lt_is_Some_2 sy k Hky) as [yck Hyck].
  rewrite <- Hx in Hxck. rewrite <- Hy in Hyck.
  pose proof (offsets_Ok (IZernike b zn) b xs ys k xck yck eq_refl Hxck Hyck) as Ho.
  set (dx := tmap (fun v => v - (xck + xs)) (x b)) in *.
  set (dy := tmap (fun v => v - (yck + ys)) (y b)) in *.
  assert (Sdx : tshape dx = [fst sh; snd sh]) by (unfold dx; now rewrite tshape_tmap).
  assert (Sdy : tshape dy = [fst sh; snd sh]) by (unfold dy; now rewrite tshape_tmap).
  destruct (Zernike_psf_shaped b zn dx dy a c zp k (Zern_nk zern_n))
    as (p & Hp & Sp & Wp & Hpos).
  - rewrite Sdx. now apply Hcache.
  - congruence.
  - now apply twf_tmap.
  - now apply twf_tmap.
  - rewrite Hs, Sdx. apply tzeros_shape.
  - exact Hnk.
  - rewrite Hmask, length_replicate. exact H15.
  - exists (tmap (fun d => flux * d / (if norm then rsum (telems p) else 1)) p).
    split; [now apply (evaluate_form _ flux xs ys _ k norm dx dy p)|].
    split; [rewrite tshape_tmap; congruence|].
    intros H1 H2 -> ->. rewrite rsum_telems_scale.
    assert (0 < rsum (telems p)).
    { apply rsum_pos; [|exact Hpos].
      apply (telems_nonempty p (fst sh) (snd sh)); auto. congruence. }
    field. lra.
Qed.

(** ** More coefficients than cached modes *)

Lemma foldM_app {A S} (f : S -> A -> result S) (l1 l2 : list A) :
  forall s, foldM f s (l1 ++ l2) = s' ← foldM f s l1; foldM f s' l2.
Proof.
  induction l1 as [|a l1 IH]; intros s; simpl; [reflexivity|].
  destruct (f s a) as [s1|e]; cbn [mbind result_bind]; [apply IH|reflexivity].
Qed.

Lemma Zernike_term_missing (zn : zern) (zp : list R) (j i : nat) (acc : tensor)
    (cj : gmap nat tensor) :
  mode_mask zn !! i = Some 1%Z -> is_Some (zp !! i) ->
  cache zn !! j = Some cj -> cj !! i = None ->
  Zernike_term zn (T1 zp) j acc i = Raise KeyError.
Proof.
  intros Hm [p Hp] Hcj Hi. unfold Zernike_term, index, getitem.
  rewrite Hm. cbn [mbind result_bind tindex]. unfold index. rewrite Hp.
  cbn [fmap result_fmap mbind result_bind truthy Z.eqb negb].
  rewrite Hcj. cbn [mbind result_bind]. now rewrite Hi.
Qed.

(** X18: the cache holds one image per mode of the basis.  For a basis
    with fewer than 15 modes, a parameter vector with more coefficients
    than modes (such as the default one, which has 15) makes [evaluate]
    look up a mode that was never cached: the call raises [KeyError]. *)
Theorem Zernike_evaluate_missing_mode (sh : nat * nat) (cr rr : R) (sx sy : list R)
    (bk : R) (ls : Loss) (src : Source) (zern_n : nat) (b : base) (zn : zern)
    (k : nat) (flux xs ys a c : R) (zp : list R) (norm : bool) :
  Zernike_init sh cr rr sx sy bk ls src zern_n = Ok (IZernike b zn) ->
  (k < length sx)%nat -> (k < length sy)%nat ->
  (Zern_nk zern_n < length zp)%nat -> (length zp <= 15)%nat ->
  evaluate (IZernike b zn) flux xs ys (T1 (a :: c :: zp)) k norm = Raise KeyError.
Proof.
  intros Hinit Hkx Hky Hnk H15.
  destruct (Zernike_init_shaped _ _ _ _ _ _ _ _ _ _ _ Hinit)
    as (Hs & Hx & Hy & _ & Sx & Sy & Wx & Wy & Hmask & Hcache).
  destruct (lookup_lt_is_Some_2 sx k Hkx) as [xck Hxck].
  destruct (lookup_lt_is_Some_2 sy k Hky) as [yck Hyck].
  rewrite <- Hx in Hxck. rewrite <- Hy in Hyck.
  unfold evaluate.
  rewrite (offsets_Ok (IZernike b zn) b xs ys k xck yck eq_refl Hxck Hyck).
  cbn [mbind result_bind psf]. unfold Zernike_psf.
  change (ttake 2 (T1 (a :: c :: zp))) with (Ok (T1 [a; c])).
  change (tdrop 2 (T1 (a :: c :: zp))) with (Ok (T1 zp)).
  cbn [titer fmap list_fmap mbind result_bind tlen].
  set (n := Zern_nk zern_n) in *.
  replace (length zp) with (n + S (length zp - S n))%nat at 1 by lia.
  rewrite seq_app, foldM_app. cbn [seq foldM].
  pose proof (Hcache k Hkx) as Hstar.
  destruct (Zernike_terms_shaped zn zp k n [fst sh; snd sh] (seq 0 n) Hstar)
    with (acc := tzeros (shape b)) as (acc & Hacc & _ & _).
  { intros i Hin. apply in_seq in Hin. rewrite Hmask, length_replicate. lia. }
  { rewrite Hs. apply tzeros_shape. }
  { apply tzeros_wf. }
  rewrite Hacc. cbn [mbind result_bind]. rewrite Nat.add_0_l.
  destruct Hstar as (cj & Hcj & _ & Hnone).
  rewrite (Zernike_term_missing zn zp k n acc cj); [reflexivity| | |exact Hcj|].
  - rewrite Hmask. apply lookup_replicate_2. lia.
  - apply lookup_lt_is_Some_2. lia.
  - apply Hnone. lia.
Qed.

(** ** Star indices and flux vectors out of range *)

(** X19: construction does not compare the lengths of [xc] and [yc];
    [evaluate] raises [IndexError] for a star index that is outside either
    of them. *)
Theorem evaluate_star_out_of_range (self : model) (b : base) (flux xs ys : R)
    (params : tensor) (k : nat) (norm : bool) :
  attrs self = Ok b ->
  (length (xc b) <= k)%nat \/ (length (yc b) <= k)%nat ->
  evaluate self flux xs ys params k norm = Raise IndexError.
Proof.
  intros Ha Hk. unfold evaluate, offsets. rewrite Ha.
  cbn [fmap result_fmap mbind result_bind]. unfold index.
  destruct (xc b !! k) as [xck|] eqn:Hx; cbn [mbind result_bind]; [|reflexivity].
  unfold tsub. rewrite tbin_scalar_r. cbn [mbind result_bind].
  destruct Hk as [Hk|Hk].
  - apply lookup_ge_None in Hk. congruence.
  - apply lookup_ge_None in Hk. now rewrite Hk.
Qed.

Lemma mapM_app_raise {A B} (f : A -> result B) (l1 l2 : list A) (a : A) (e : error) :
  (forall a1, In a1 l1 -> exists b1, f a1 = Ok b1) -> f a = Raise e ->
  mapM f (l1 ++ a :: l2) = Raise e.
Proof.
  intros H1 Ha. induction l1 as [|a1 l1 IH]; simpl.
  - now rewrite Ha.
  - destruct (H1 a1) as (b1 & Hb1); [now left|]. rewrite Hb1.
    cbn [mbind result_bind]. rewrite IH; [reflexivity|].
    intros a2 Hin. apply H1. now right.
Qed.

(** X20: [mean] reads [flux[j]] for every star: with fewer fluxes than
    stars, and stars that evaluate as far as the fluxes reach, it raises
    [IndexError]. *)
Theorem mean_short_flux (self : model) (b : base) (flux : list R)
    (xs ys bkg : R) (optpars : tensor) (norm : bool) :
  attrs self = Ok b -> (length flux < nstars b)%nat ->
  (forall j fj, flux !! j = Some fj ->
     exists t, evaluate self fj xs ys optpars j norm = Ok t) ->
  mean self flux xs ys bkg optpars norm = Raise IndexError.
Proof.
  intros Ha Hl Hev. unfold mean. rewrite Ha.
  cbn [fmap result_fmap mbind result_bind].
  replace (nstars b) with (length flux + S (nstars b - S (length flux)))%nat by lia.
  rewrite seq_app. cbn [seq]. rewrite Nat.add_0_l.
  rewrite (mapM_app_raise _ _ _ _ IndexError); [reflexivity| |].
  - intros j Hin. apply in_seq in Hin.
    destruct (lookup_lt_is_Some_2 flux j) as [fj Hfj]; [lia|].
    destruct (Hev j fj Hfj) as (t & Ht). exists t.
    rewrite (index_Some _ _ _ Hfj). cbn [mbind result_bind]. exact Ht.
  - unfold index. rewrite (lookup_ge_None_2 flux (length flux)) by lia. reflexivity.
Qed.

(** ** The Bessel gradient is linear in the upstream gradient *)

Lemma backward_after_forward (x g : tensor) (nu : R) :
  tshape x <> [] -> tshape g = tshape x -> twf g -> twf x ->
  backward (fst (forward new_ctx x (Number nu))) g
  = Ok (tzip (fun gi xi => 0.5 * gi * (iv (nu - 1.0) xi + iv (nu + 1.0) xi)) g x,
        None).
Proof.
  intros Hd Hs Hg Hx. unfold backward.
  cbn [forward fst saved_tensors _nu getattr mbind result_bind order_map].
  rewrite !apply_fn_number by exact Hd. cbn [mbind result_bind].
  pose proof (sum_times (Rmult 0.5) (iv (nu - 1.0)) (iv (nu + 1.0)) g x Hs Hg Hx) as H.
  unfold tadd, tmul in *.
  destruct (tbin Rplus (tmap (iv (nu - 1.0)) x) (tmap (iv (nu + 1.0)) x)) as [s|e];
    cbn [mbind result_bind] in *; [|discriminate].
  cbn [tbin mbind result_bind]. rewrite H. reflexivity.
Qed.

Lemma zip_with_additive (F : R -> R -> R) (g1 g2 x : list R) :
  (forall a b c, F (a + b) c = F a c + F b c) ->
  zip_with F (zip_with Rplus g1 g2) x
  = zip_with Rplus (zip_with F g1 x) (zip_with F g2 x).
Proof.
  intros HF. revert g2 x.
  induction g1 as [|a g1 IH]; intros [|b g2] [|c x]; simpl; try reflexivity.
  rewrite HF. f_equal. apply IH.
Qed.

Lemma tzip_additive (F : R -> R -> R) (g1 g2 x : tensor) :
  (forall a b c, F (a + b) c = F a c + F b c) ->
  tshape g1 = tshape x -> tshape g2 = tshape x ->
  tzip F (tzip Rplus g1 g2) x = tzip Rplus (tzip F g1 x) (tzip F g2 x).
Proof.
  intros HF.
  destruct g1 as [a|u1|c1 m1], g2 as [b|u2|c2 m2], x as [c|v|c3 m3]; simpl;
    try discriminate; intros _ _.
  - now rewrite HF.
  - f_equal. now apply zip_with_additive.
  - f_equal. revert m2 m3.
    induction m1 as [|r1 m1 IH]; intros [|r2 m2] [|r3 m3]; simpl; try reflexivity.
    rewrite zip_with_additive by exact HF. f_equal. apply IH.
Qed.

(** X21: after [forward] on an input [x] of dimension at least 1 with a
    numeric order, [backward] is additive in the upstream gradient: for
    two gradients of the shape of [x], the input gradient of their sum is
    the sum of their input gradients. *)
Theorem backward_additive (x g1 g2 : tensor) (nu : R) :
  tshape x <> [] ->
  tshape g1 = tshape x -> tshape g2 = tshape x -> twf g1 -> twf g2 -> twf x ->
  exists r1 r2 g,
    tadd g1 g2 = Ok g
    /\ backward (fst (forward new_ctx x (Number nu))) g1 = Ok (r1, None)
    /\ backward (fst (forward new_ctx x (Number nu))) g2 = Ok (r2, None)
    /\ backward (fst (forward new_ctx x (Number nu))) g = Ok (tzip Rplus r1 r2, None)
    /\ tadd r1 r2 = Ok (tzip Rplus r1 r2).
Proof.
  intros Hd S1 S2 W1 W2 Wx.
  set (F := fun gi xi => 0.5 * gi * (iv (nu - 1.0) xi + iv (nu + 1.0) xi)).
  exists (tzip F g1 x), (tzip F g2 x), (tzip Rplus g1 g2).
  assert (Sg : tshape (tzip Rplus g1 g2) = tshape x)
    by (rewrite tshape_tzip; congruence).
  assert (Wg : twf (tzip Rplus g1 g2)) by (apply twf_tzip; congruence).
  split; [apply tbin_same; congruence|].
  split; [now apply backward_after_forward|].
  split; [now apply backward_after_forward|].
  split.
  - rewrite backward_after_forward by assumption. do 2 f_equal.
    apply tzip_additive; [|assumption|assumption].
    intros a b c. unfold F. ring.
  - apply tbin_same.
    + rewrite !tshape_tzip; congruence.
    + now apply twf_tzip.
    + now apply twf_tzip.
Qed.

End Properties.

(** ** The calibrated coefficients *)

(** C7: after construction [zpars] is the 15-element literal, whatever
    the solver returned and whatever the reference image: two Zernike
    models built in two environments, from any arguments, hold the same
    [zpars]. *)
Theorem zpars_is_literal (E1 E2 : Env)
    (sh1 sh2 : nat * nat) (cr1 rr1 cr2 rr2 : R) (sx1 sy1 sx2 sy2 : list R)
    (bk1 bk2 : R) (ls1 : @Loss E1) (ls2 : @Loss E2)
    (src1 : @Source E1) (src2 : @Source E2) (n1 n2 : nat)
    (self1 : @model E1) (self2 : @model E2) :
  @Zernike_init E1 sh1 cr1 rr1 sx1 sy1 bk1 ls1 src1 n1 = Ok self1 ->
  @Zernike_init E2 sh2 cr2 rr2 sx2 sy2 bk2 ls2 src2 n2 = Ok self2 ->
  exists b1 z1 b2 z2,
    self1 = IZernike b1 z1 /\ self2 = IZernike b2 z2
    /\ zpars z1 = zpars_literal /\ zpars z2 = zpars_literal
    /\ zpars z1 = zpars z2
    /\ length (zpars z1) = 15%nat.
Proof.
  intros H1 H2.
  apply Zernike_init_Ok in H1. destruct H1 as (b1 & z1 & r1 & -> & _ & _ & Hz1).
  apply Zernike_init_Ok in H2. destruct H2 as (b2 & z2 & r2 & -> & _ & _ & Hz2).
  apply Zernike_tables_Ok in Hz1. destruct Hz1 as (_ & Hp1 & _).
  apply Zernike_tables_Ok in Hz2. destruct Hz2 as (_ & Hp2 & _).
  exists b1, z1, b2, z2. rewrite Hp1, Hp2. repeat split; reflexivity.
Qed.

(** * The properties on the sample inputs *)

Lemma sample_gaussian_constructed : constructed sample_gaussian.
Proof. exists 1%nat, CGaussian, sample_kw. reflexivity. Qed.

Lemma grid_and_offsets_witness :
  tget2 (y sample_gaussian_base) 1 2 = Ok (10 + INR 1)
  /\ tget2 (x sample_gaussian_base) 1 2 = Ok (20 + INR 2).
Proof.
  destruct (grid_and_offsets sample_gaussian sample_gaussian_base
              2 3 1 2 1 22 11 1 0 0 (T1 []) true)
    as (_ & _ & Hy & Hx & _).
  - exact sample_gaussian_constructed.
  - reflexivity.
  - reflexivity.
  - lia.
  - lia.
  - reflexivity.
  - reflexivity.
  - split; [exact Hy | exact Hx].
Defined.

Lemma shared_bounds_rows_witness :
  PRFWrap_init sample_kw_wrap = Ok (IPRFWrap sample_gaussian)
  /\ get_bounds (IPRFWrap sample_gaussian) = Raise AttributeError
  /\ get_bounds (run_all (IPRFWrap sample_gaussian)
                   [Call_get_default_optpars; Call_mean [1; 1] 0 0 2 (T1 [1; 0; 1]) true])
     = Raise AttributeError.
Proof.
  assert (H : PRFWrap_init sample_kw_wrap = Ok (IPRFWrap sample_gaussian)) by reflexivity.
  split; [exact H|].
  destruct (shared_bounds_rows (IPRFWrap sample_gaussian)
              [Call_get_default_optpars; Call_mean [1; 1] 0 0 2 (T1 [1; 0; 1]) true])
    as [(sub & _ & H0 & H1)|(b & Hb & _)].
  - exists recursion_limit, CPRFWrap, sample_kw_wrap. exact H.
  - split; [exact H0 | exact H1].
  - discriminate Hb.
Defined.





Lemma sample_moffat_constructed : constructed sample_moffat.
Proof. exists 1%nat, CMoffat, sample_kw. reflexivity. Qed.


Lemma unit_flux_normalization_witness :
  (exists t, evaluate (IGaussian sample_moffat_base) 1 0 0 (T1 [1; 0; 1]) 0 true = Ok t
     /\ rsum (telems t) = 1)
  /\ evaluate sample_moffat 1 0 0 (T1 [1; 0; 1; 1]) 0 true = Raise ValueError.
Proof.
  destruct (unit_flux_normalization sample_moffat_base 2 3 0 21 10 0 0 1 0 1 1)
    as [(t & Ht & _ & Hsum) Hm].
  - exact (constructed_inv _ _ sample_moffat_constructed eq_refl).
  - reflexivity.
  - lia.
  - lia.
  - lia.
  - reflexivity.
  - reflexivity.
  - split; [exists t; exact (conj Ht Hsum) | exact Hm].
Defined.

Lemma PRFWrap_density_witness :
  PRFWrap_init sample_kw_wrap = Ok (IPRFWrap sample_gaussian)
  /\ psf (IPRFWrap sample_gaussian) (T0 1) (T0 1) (T1 [1; 0; 1]) 0 = Raise AttributeError.
Proof.
  assert (H : PRFWrap_init sample_kw_wrap = Ok (IPRFWrap sample_gaussian)) by reflexivity.
  destruct (PRFWrap_density sample_kw_wrap (IPRFWrap sample_gaussian)
              (T0 1) (T0 1) (T1 [1; 0; 1]) 0 H) as (sub & Hsub & _ & _ & Hp & _).
  injection Hsub as <-.
  split; [exact H|]. exact (Hp _ eq_refl).
Defined.

Lemma sample_zernike_total :
  exists b zn,
    Zernike_init (E := sample_env) (2, 3)%nat 20 10 [21; 22] [10; 11] 2 tt tt 4
    = Ok (IZernike b zn).
Proof.
  apply (Zernike_init_total (E := sample_env) _ _ _ _ _ _ _ _ _ (T2 1 [[1]])).
  - reflexivity.
  - intros p0. exists p0. reflexivity.
  - cbv. lia.
  - cbv. lia.
  - simpl. lia.
Qed.

Lemma sample_zernike_alt_total :
  exists b zn,
    Zernike_init (E := sample_env_alt) (3, 3)%nat 0 0 [1] [1] 0 tt tt 4
    = Ok (IZernike b zn).
Proof.
  apply (Zernike_init_total (E := sample_env_alt) _ _ _ _ _ _ _ _ _
           (T2 2 [[1; 2]; [3; 4]])).
  - reflexivity.
  - intros p0. eexists. reflexivity.
  - cbv. lia.
  - cbv. lia.
  - simpl. lia.
Qed.

Lemma zpars_is_literal_witness :
  exists (self1 : model (E := sample_env)) (self2 : model (E := sample_env_alt)) b1 z1 b2 z2,
    self1 = IZernike b1 z1 /\ self2 = IZernike b2 z2 /\ zpars z1 = zpars z2.
Proof.
  destruct sample_zernike_total as (b1 & z1 & H1).
  destruct sample_zernike_alt_total as (b2 & z2 & H2).
  destruct (zpars_is_literal sample_env sample_env_alt _ _ _ _ _ _ _ _ _ _ _ _ _ _ _ _
              _ _ _ _ H1 H2) as (b1' & z1' & b2' & z2' & E1 & E2 & _ & _ & Hz & _).
  exists (IZernike b1 z1), (IZernike b2 z2), b1', z1', b2', z2'.
  exact (conj E1 (conj E2 Hz)).
Defined.

Lemma bounds_and_default_lengths_witness :
  exists self v,
    Zernike_init (E := sample_env) (2, 3)%nat 20 10 [21; 22] [10; 11] 2 tt tt 4 = Ok self
    /\ get_bounds self = Ok (base_bounds 2)
    /\ get_default_par self (T1 [5]) = Ok v
    /\ length (base_bounds 2) = 5%nat
    /\ length v = 22%nat.
Proof.
  destruct sample_zernike_total as (b & zn & H).
  destruct (bounds_and_default_lengths (E := sample_env) (2, 3)%nat 20 10 [21; 22]
              [10; 11] 2 tt tt 4 (T1 [5]) 5 eq_refl) as (_ & _ & Hz & _).
  destruct (Hz _ H) as (v & Hb & Hv & Hlb & Hlv).
  exists (IZernike b zn), v. repeat split; assumption.
Defined.

Lemma sample_mask : make_mode_mask [0; 1; 1] 0 = [0; 1; 1]%Z.
Proof.
  unfold make_mode_mask. cbn [fmap list_fmap].
  destruct (Rlt_dec 0 (Rabs 0)) as [H|H]; [rewrite Rabs_R0 in H; lra|].
  destruct (Rlt_dec 0 (Rabs 1)) as [H1|H1]; [reflexivity|].
  exfalso. apply H1. rewrite Rabs_R1. lra.
Qed.

Lemma mode_mask_invariant_witness :
  exists zn,
    Zernike_tables sample_base (TorchZern_new (E := sample_env) 1) [0; 1; 1] 0 (2, 3)%nat [21; 22] [10; 11]
    = Ok zn
    /\ (exists cj, cache zn !! 1%nat = Some cj /\ cj !! 0%nat = Some (tzeros (2, 3)%nat))
    /\ mean (IZernike sample_base zn) [1; 1] 0 0 2 (T1 [1; 1; 5; 3; 4]) true
       = mean (IZernike sample_base zn) [1; 1] 0 0 2 (T1 [1; 1; 7; 3; 4]) true.
Proof.
  destruct (Zernike_tables_total sample_base (TorchZern_new (E := sample_env) 1) [0; 1; 1] 0
              (2, 3)%nat [21; 22] [10; 11]) as (zn & Hz).
  - reflexivity.
  - cbv. lia.
  - cbv. lia.
  - cbv. lia.
  - cbv. lia.
  - exists zn. split; [exact Hz|].
    destruct (Zernike_tables_Ok _ _ _ _ _ _ _ _ Hz) as (_ & _ & Hmask & _).
    rewrite sample_mask in Hmask.
    destruct (mode_mask_invariant sample_base (TorchZern_new (E := sample_env) 1) [0; 1; 1] 0
                (2, 3)%nat [21; 22] [10; 11] zn 1 0 [1; 1] 0 0 2
                [1; 1; 5; 3; 4] [1; 1; 7; 3; 4] true Hz) as (Hc & _ & Hm).
    + cbv. lia.
    + cbv. lia.
    + rewrite Hmask. reflexivity.
    + reflexivity.
    + reflexivity.
    + intros i m Hi Hne. rewrite Hmask in Hi.
      destruct i as [|[|[|i]]]; simpl in Hi; try reflexivity; try discriminate.
      injection Hi as <-. now contradiction Hne.
    + exact (conj Hc Hm).
Defined.

Lemma evaluate_linear_in_flux_witness :
  exists t,
    evaluate sample_gaussian 1 0 0 (T1 [1; 0; 1]) 0 true = Ok t
    /\ evaluate sample_gaussian 7 0 0 (T1 [1; 0; 1]) 0 true = Ok (tmap (Rmult 7) t).
Proof.
  destruct (Gaussian_evaluate_shape sample_gaussian_base 2 3 0 21 10 1 0 0 1 0 1 true
              (constructed_inv _ _ sample_gaussian_constructed eq_refl)
              eq_refl eq_refl eq_refl) as (t & Ht & _).
  exists t. split; [exact Ht|].
  exact (evaluate_linear_in_flux sample_gaussian 7 0 0 (T1 [1; 0; 1]) 0 true t Ht).
Defined.

Lemma optical_parameter_count_witness :
  Gaussian_psf (T0 1) (T0 1) (T1 [1; 0]) 0 = Raise ValueError.
Proof.
  destruct (optical_parameter_count sample_base
              {| z := TorchZern_new (E := sample_env) 1; zpars := []; mode_mask := [];
                 cache := ∅; coords := ∅ |}
              (T0 1) (T0 1) [1; 0] 0) as (H & _ & _).
  apply H. simpl. lia.
Defined.

Lemma Gaussian_point_symmetry_witness :
  Gaussian_psf (tmap Ropp (T1 [1; 2])) (tmap Ropp (T1 [3; 4])) (T1 [1; 0; 1]) 0
  = Gaussian_psf (T1 [1; 2]) (T1 [3; 4]) (T1 [1; 0; 1]) 0.
Proof.
  exact (Gaussian_point_symmetry 1 0 1 (T1 [1; 2]) (T1 [3; 4]) 0 eq_refl I I).
Defined.

Lemma Gaussian_density_range_witness :
  exists p, Gaussian_psf (T1 [1; 2]) (T1 [3; 4]) (T1 [1; 0; 1]) 0 = Ok p
    /\ Forall (fun v => 0 < v) (telems p)
    /\ Forall (fun v => v <= 1) (telems p).
Proof.
  destruct (Gaussian_density_range 1 0 1 (T1 [1; 2]) (T1 [3; 4]) 0 eq_refl I I)
    as (p & Hp & _ & Hpos & Hle).
  exists p. split; [exact Hp|]. split; [exact Hpos|].
  apply Hle; lra.
Defined.

Lemma Airy_psf_raises_witness :
  Airy_psf (E := sample_env) (T2 2 [[1; 2]]) (T2 2 [[3; 4]]) (T0 2) 0 = Raise TypeError.
Proof.
  destruct (Airy_psf_raises (E := sample_env) (T2 2 [[1; 2]]) (T2 2 [[3; 4]]) (T0 2) 0)
    as (_ & H & _).
  apply H.
  - reflexivity.
  - repeat constructor.
  - repeat constructor.
Defined.

Lemma default_parameters_layout_witness :
  exists mx, In mx [3; 5; 4]
    /\ get_default_par sample_gaussian (T1 [3; 5; 4])
       = Ok (replicate 2 mx ++ [0; 0; 2] ++ [1; 0; 1]).
Proof.
  destruct (default_parameters_layout sample_gaussian sample_gaussian_base
              (T1 [3; 5; 4]) [1; 0; 1] eq_refl eq_refl) as [H _].
  destruct H as (mx & Hin & _ & Hv); [discriminate|].
  exists mx. exact (conj Hin Hv).
Defined.

Lemma default_parameters_within_bounds_witness :
  exists v bs, get_default_par sample_gaussian (T1 [5]) = Ok v
    /\ get_bounds sample_gaussian = Ok bs /\ within_bounds v bs.
Proof.
  apply (default_parameters_within_bounds (E := sample_env) (2, 3)%nat 20 10
           [21; 22] [10; 11] 2 tt tt (T1 [5]) 5 sample_gaussian).
  - left. reflexivity.
  - reflexivity.
  - lra.
  - lra.
Defined.

Lemma PRFWrap_of_PRFWrap_witness :
  PRFWrap_init (sample_kw_model "PRFWrap") = Raise RecursionError.
Proof. exact (PRFWrap_of_PRFWrap (sample_kw_model "PRFWrap") eq_refl). Defined.

Lemma PRFWrap_of_Zernike_witness :
  PRFWrap_init (sample_kw_model "Zernike") = Raise TypeError.
Proof. exact (PRFWrap_of_Zernike (sample_kw_model "Zernike") eq_refl). Defined.

Lemma Zernike_init_more_modes_witness :
  Zernike_init (E := sample_env) (2, 3)%nat 20 10 [21; 22] [10; 11] 2 tt tt 5
  = Raise IndexError.
Proof.
  apply (Zernike_init_more_modes (E := sample_env) _ _ _ _ _ _ _ _ _ (T2 1 [[1]])).
  - reflexivity.
  - intros p0. exists p0. reflexivity.
  - cbv. lia.
  - discriminate.
Defined.

Lemma angular_image_witness :
  angular (TorchZern_new (E := sample_env) 4) 0 (T1 [1; 2])
  = Ok (tmap (fun _ => 1) (T1 [1; 2])).
Proof.
  destruct (angular_image (TorchZern_new (E := sample_env) 4) 0 (T1 [1; 2]))
    as (_ & H & _).
  apply H. reflexivity.
Defined.

Lemma angular_pair_witness :
  exists c s,
    angular (TorchZern_new (E := sample_env) 4) 1 (T1 [1; 2]) = Ok c
    /\ angular (TorchZern_new (E := sample_env) 4) 2 (T1 [1; 2]) = Ok s
    /\ tzip (fun a b => a ^ 2 + b ^ 2) c s = tmap (fun _ => 1) (T1 [1; 2]).
Proof.
  destruct (angular_pair (TorchZern_new (E := sample_env) 4) 1 2 1 (T1 [1; 2]))
    as (c & s & Hc & Hs & _ & _ & Hsum).
  - reflexivity.
  - reflexivity.
  - lia.
  - exists c, s. exact (conj Hc (conj Hs Hsum)).
Defined.

Lemma Rnm_horner_witness :
  Rnm [[2; 0; -1]] 0 (T1 [3]) = Ok (tmap (polyval [2; 0; -1]) (T1 [3])).
Proof.
  destruct (Rnm_horner [[2; 0; -1]] 0 (T1 [3]) [2; 0; -1] I eq_refl) as (H & _).
  apply H. simpl. lia.
Defined.

Lemma ck_noll_witness : ck true 2 2 = sqrt 2 * ck true 2 0.
Proof.
  destruct (ck_noll 2 2) as (_ & H & _); [lia|].
  destruct H as [_ H]; [lia|]. exact H.
Defined.

Lemma polar_coordinates_witness :
  exists rho theta,
    get_polar_coords sample_gaussian_base 21 10 = Ok (rho, theta)
    /\ tget2 rho 1 2 = Ok (sqrt ((20 + INR 2 - 21) ^ 2 + (10 + INR 1 - 10) ^ 2)).
Proof.
  destruct (polar_coordinates sample_gaussian_base 2 3 1 2 21 10)
    as (rho & theta & H & _ & _ & Hr & _).
  - exact (constructed_inv _ _ sample_gaussian_constructed eq_refl).
  - reflexivity.
  - lia.
  - lia.
  - exists rho, theta. exact (conj H Hr).
Defined.

Lemma Zernike_evaluate_total_witness :
  exists b zn t,
    Zernike_init (E := sample_env) (2, 3)%nat 20 10 [21; 22] [10; 11] 2 tt tt 4
    = Ok (IZernike b zn)
    /\ evaluate (IZernike b zn) 1 0 0 (T1 [1; 1; 1; 2]) 0 true = Ok t
    /\ tshape t = [2; 3]%nat /\ rsum (telems t) = 1.
Proof.
  destruct sample_zernike_total as (b & zn & H).
  destruct (Zernike_evaluate_total (E := sample_env) _ _ _ _ _ _ _ _ _ b zn
              0 1 0 0 1 1 [1; 2] true H) as (t & Ht & Hs & Hsum).
  - simpl. lia.
  - simpl. lia.
  - cbv. lia.
  - simpl. lia.
  - exists b, zn, t. split; [exact H|]. split; [exact Ht|]. split; [exact Hs|].
    apply Hsum; simpl; auto.
Defined.

Lemma sample_zernike3_total :
  exists b zn,
    Zernike_init (E := sample_env) (2, 3)%nat 20 10 [21; 22] [10; 11] 2 tt tt 3
    = Ok (IZernike b zn).
Proof.
  apply (Zernike_init_total (E := sample_env) _ _ _ _ _ _ _ _ _ (T2 1 [[1]])).
  - reflexivity.
  - intros p0. exists p0. reflexivity.
  - cbv. lia.
  - cbv. lia.
  - simpl. lia.
Qed.

Lemma Zernike_evaluate_missing_mode_witness :
  exists b zn,
    Zernike_init (E := sample_env) (2, 3)%nat 20 10 [21; 22] [10; 11] 2 tt tt 3
    = Ok (IZernike b zn)
    /\ evaluate (IZernike b zn) 1 0 0 (T1 (1 :: 1 :: replicate 15 0)) 0 true
       = Raise KeyError.
Proof.
  destruct sample_zernike3_total as (b & zn & H).
  exists b, zn. split; [exact H|].
  apply (Zernike_evaluate_missing_mode (E := sample_env) _ _ _ _ _ _ _ _ _ b zn
           0 1 0 0 1 1 (replicate 15 0) true H).
  - simpl. lia.
  - simpl. lia.
  - cbv. lia.
  - simpl. lia.
Defined.

Lemma evaluate_star_out_of_range_witness :
  evaluate sample_gaussian 1 0 0 (T1 [1; 0; 1]) 5 true = Raise IndexError.
Proof.
  apply (evaluate_star_out_of_range sample_gaussian sample_gaussian_base
           1 0 0 (T1 [1; 0; 1]) 5 true eq_refl).
  left. simpl. lia.
Defined.

Lemma mean_short_flux_witness :
  mean sample_gaussian [1] 0 0 2 (T1 [1; 0; 1]) true = Raise IndexError.
Proof.
  apply (mean_short_flux sample_gaussian sample_gaussian_base [1] 0 0 2
           (T1 [1; 0; 1]) true eq_refl).
  - unfold nstars. simpl. lia.
  - intros j fj Hj. destruct j as [|j]; [|discriminate].
    destruct (Gaussian_evaluate_shape sample_gaussian_base 2 3 0 21 10 fj 0 0 1 0 1 true
                (constructed_inv _ _ sample_gaussian_constructed eq_refl)
                eq_refl eq_refl eq_refl) as (t & Ht & _).
    exists t. exact Ht.
Defined.

Lemma backward_additive_witness :
  exists r1 r2,
    backward (E := sample_env) (fst (forward (E := sample_env) new_ctx (T1 [1; 2]) (Number 1)))
      (T1 [3; 4]) = Ok (r1, None)
    /\ backward (E := sample_env) (fst (forward (E := sample_env) new_ctx (T1 [1; 2]) (Number 1)))
         (T1 [5; 6]) = Ok (r2, None)
    /\ backward (E := sample_env) (fst (forward (E := sample_env) new_ctx (T1 [1; 2]) (Number 1)))
         (T1 [3 + 5; 4 + 6]) = Ok (tzip Rplus r1 r2, None).
Proof.
  destruct (backward_additive (E := sample_env) (T1 [1; 2]) (T1 [3; 4]) (T1 [5; 6]) 1)
    as (r1 & r2 & g & Hg & H1 & H2 & H & _);
    [discriminate|reflexivity|reflexivity|exact I|exact I|exact I|].
  injection Hg as <-.
  exists r1, r2. exact (conj H1 (conj H2 H)).
Defined.
